(** * hypofuzz: the per-target fuzzing loop of [hypofuzz/hy.py]

    A shallow embedding of [sort_key], [fuzz_in_generator] and the class
    [FuzzProcess] ([__init__], [startup], [generate_prefix], [_gen_bytes],
    [run_one], [_update], [_json_description],
    [estimated_value_of_next_run], [has_found_failure]), followed by the
    properties of the engine that the specification states about them.
    The schedulers [engine] and [fuzz_several] and the class method
    [from_hypothesis_test] are not part of it.  A Python [float] is an
    IEEE 754 binary64 number, taken from [SpecFloat].

    Python objects are mutated in place and a raised exception leaves the
    mutations made so far; a method is therefore a function from the
    object to an outcome (a value or an exception) and the object after
    the call. *)

From Stdlib Require Import ZArith QArith Qround.
From Stdlib.Strings Require Import Byte.
From Stdlib.Floats Require Import SpecFloat.
From stdpp Require Import gmap strings list sorting.

Local Open Scope Z_scope.

#[local] Set Warnings "-clear-no-such-hyp".

(** ** Byte strings *)

(** Python [bytes]: a sequence of integers in [range(256)]. *)
Abbreviation bytes := (list byte).

Definition byte_val (b : byte) : N := Byte.to_N b.

Lemma byte_val_inj (x y : byte) : byte_val x = byte_val y → x = y.
Proof.
  unfold byte_val. intros E.
  assert (Some x = Some y) as [= ->]; [|done].
  by rewrite <- (Byte.of_to_N x), <- (Byte.of_to_N y), E.
Qed.

(** Bytes are compared through their values. *)
#[global] Instance byte_eq_dec : EqDecision byte := λ x y,
  match decide (byte_val x = byte_val y) with
  | left e => left (byte_val_inj x y e)
  | right n => right (λ e, n (f_equal byte_val e))
  end.

#[global] Program Instance byte_countable : Countable byte :=
  inj_countable' byte_val (λ n, default x00 (Byte.of_N n)) _.
Next Obligation. intros b. unfold byte_val. by rewrite Byte.of_to_N. Qed.

(** [a < b] on [bytes]: the first differing position decides, and a proper
    prefix is smaller. *)
Fixpoint bytes_lt (a b : bytes) : bool :=
  match a, b with
  | _, [] => false
  | [], _ :: _ => true
  | x :: a', y :: b' =>
      if decide (x = y) then bytes_lt a' b'
      else N.ltb (byte_val x) (byte_val y)
  end.

(** Comparison of 2-tuples [(int, bytes)]: the first component that
    differs (by [==]) decides; equal tuples are [<=] but not [<]. *)
Definition tuple_lt (k1 k2 : nat * bytes) : bool :=
  if decide (k1.1 = k2.1) then bytes_lt k1.2 k2.2
  else Nat.ltb k1.1 k2.1.

Definition tuple_le (k1 k2 : nat * bytes) : bool :=
  if decide (k1.1 = k2.1) then
    (if decide (k1.2 = k2.2) then true else bytes_lt k1.2 k2.2)
  else Nat.ltb k1.1 k2.1.

(** The specification's words for "b1 lexicographically precedes b2": the
    two strings agree up to a position where b1 has the smaller byte, or
    b1 is a proper prefix of b2. *)
Definition lex_precedes (b1 b2 : bytes) : Prop :=
  (∃ p x y s1 s2, b1 = p ++ x :: s1 ∧ b2 = p ++ y :: s2 ∧
                  (byte_val x < byte_val y)%N)
  ∨ (∃ y s, b2 = b1 ++ y :: s).

(** ** Floats *)

(** A Python [float]: binary64, 53 bits of precision and exponents below
    1024.  A finite value [S754_finite s m e] is [m * 2^e], negated when
    [s] holds. *)
Abbreviation float := spec_float.

(** An [int] as the exact operand of a division: the integer itself,
    whatever its size. *)
Definition int_operand (z : Z) : float :=
  match z with
  | Z0 => S754_zero false
  | Zpos p => S754_finite false p 0
  | Zneg p => S754_finite true p 0
  end.

(** [a / b] on two [int]s with [b] not zero: the float nearest to the
    exact quotient, ties going to the even mantissa.  ([OverflowError]
    needs a quotient beyond the largest float.) *)
Definition int_truediv (a b : Z) : float :=
  SFdiv 53 1024 (int_operand a) (int_operand b).
Arguments int_truediv : simpl never.

(** The floats [0.0] and [1.0]. *)
Definition float_0 : float := S754_zero false.
Definition float_1 : float := S754_finite false 4503599627370496 (-52).

#[global] Instance float_eq_dec : EqDecision float.
Proof. solve_decision. Defined.

(** [x < y] and [x <= y] on floats. *)
Definition float_lt (x y : float) : bool := SFltb x y.
Definition float_le (x y : float) : bool := SFleb x y.

(** ** Results of one execution *)

(** Coverage arcs ([hypofuzz.cov.Arc]) and failure origins (the tuples
    [(type(e), filename, lineno)]) are hashable values of which the engine
    uses equality and hashing only. *)
Class CoverageTypes := {
  Arc : Type;
  Arc_eq_dec :: EqDecision Arc;
  Arc_countable :: Countable Arc;
  Origin : Type;
  Origin_eq_dec :: EqDecision Origin;
  Origin_countable :: Countable Origin;
}.

(** [hypothesis.internal.conjecture.data.Status], an [IntEnum]. *)
Inductive Status := OVERRUN | INVALID | VALID | INTERESTING.

Definition Status_value (s : Status) : Z :=
  match s with OVERRUN => 0 | INVALID => 1 | VALID => 2 | INTERESTING => 3 end.

#[global] Instance Status_eq_dec : EqDecision Status.
Proof. solve_decision. Defined.

(** Exceptions that the modelled code can raise. *)
Inductive exn :=
  | AssertionError | AttributeError | ZeroDivisionError
  | IndexError | ValueError | TypeError.

Inductive outcome (A : Type) :=
  | Ok (a : A)
  | Raise (e : exn).
Arguments Ok {A} a.
Arguments Raise {A} e.

(** [ConjectureResult], with the attributes the engine reads;
    [extra_information_arcs] is [extra_information.arcs], set in
    [fuzz_in_generator]. *)
Record ConjectureResult `{CoverageTypes} := {
  buffer : bytes;
  status : Status;
  extra_information_arcs : gset Arc;
  interesting_origin : option Origin;
}.

#[global] Instance ConjectureResult_eq_dec `{CoverageTypes} :
  EqDecision ConjectureResult.
Proof. solve_decision. Defined.

(** What the engine consumes and does not implement: [random.Random], the
    constant [BUFFER_SIZE] of Hypothesis, and one pass of the loop body of
    [fuzz_in_generator] (build a [ConjectureData] from the buffer, draw the
    arguments, call the test under the coverage collector, map the
    exception to a status, freeze), which gives the frozen data.
    [Random_new seed] is [Random(seed)]; [TestState_new seed] stands for
    the test function, its strategy, a fresh [CollectionContext()] and
    the generator's own [Random(seed)].
    [Random_random] gives the value of the float that [random()] returns,
    as a rational. *)
Class Substrate `{CoverageTypes} := {
  BUFFER_SIZE : nat;
  Random : Type;
  Random_random : Random → Q * Random;
  Random_randint : Z → Z → Random → Z * Random;
  Random_new : Z → Random;
  TestState : Type;
  TestState_new : Z → TestState;
  run_test : bytes → TestState → ConjectureResult * TestState;
}.

(** [hypothesis.database.ExampleDatabase]: [save(key, value)] adds a value
    to the set stored under a key (doing nothing when it is there already)
    and [fetch(key)] gives the values stored under a key. *)
Abbreviation ExampleDatabase := (gmap bytes (gset bytes)).

Definition ExampleDatabase_fetch (key : bytes) (db : ExampleDatabase) : gset bytes :=
  default ∅ (db !! key).

Definition ExampleDatabase_save (key value : bytes) (db : ExampleDatabase)
  : ExampleDatabase :=
  <[key := {[value]} ∪ ExampleDatabase_fetch key db]> db.

(** ** The fuzz target *)

Section FuzzProcess.
Context `{Substrate}.

(** [sort_key]: shortlex order, on a buffer or on a result's buffer. *)
Definition sort_key (buffer0 : bytes + ConjectureResult) : nat * bytes :=
  let buffer1 :=
    match buffer0 with
    | inr r => buffer r          (* isinstance(buffer, ConjectureResult) *)
    | inl b => b
    end in
  (length buffer1, buffer1).

(** The generator object returned by [fuzz_in_generator]: not yet started,
    or suspended at its [yield]; [test_state] is what one pass of the loop
    leaves behind for the next (its [random], the collector). *)
Record Generator := {
  gen_started : bool;
  test_state : TestState;
}.

(** [fuzz_in_generator(test, strategy, collector, random)]: calling a
    generator function runs none of its body. *)
Definition fuzz_in_generator (ts : TestState) : Generator :=
  {| gen_started := false; test_state := ts |}.

(** What the generator yields, [data.as_result()]: the [ConjectureResult]
    of the frozen data, or, when the status is OVERRUN, the object
    [Overrun] of Hypothesis, which has the attribute [status] and neither
    [buffer] nor [extra_information]. *)
Inductive Yielded :=
  | Overrun
  | Result (r : ConjectureResult).

Definition as_result (data : ConjectureResult) : Yielded :=
  if decide (status data = OVERRUN) then Overrun else Result data.

(** The attribute [status] of either object. *)
Definition Yielded_status (y : Yielded) : Status :=
  match y with
  | Overrun => OVERRUN
  | Result r => status r
  end.

(** [next(g)] is [g.send(None)].  A fresh generator runs up to its first
    [yield] with [buf = b"\0" * BUFFER_SIZE]; a suspended one resumes with
    [buf = (yield ...) or b""] and runs the loop body once more. *)
Definition Generator_send (value : option bytes) (g : Generator)
  : outcome Yielded * Generator :=
  if gen_started g then
    let buf := match value with Some v => v | None => [] end in
    let '(r, ts) := run_test buf (test_state g) in
    (Ok (as_result r), {| gen_started := true; test_state := ts |})
  else
    match value with
    | Some _ => (Raise TypeError, g)
    | None =>
        let '(r, ts) := run_test (replicate BUFFER_SIZE x00) (test_state g) in
        (Ok (as_result r), {| gen_started := true; test_state := ts |})
    end.

(** The attributes of a [FuzzProcess] object. *)
Record FuzzProcess := {
  random : Random;
  fuzz_generator : Generator;
  nodeid : string;
  _hy_database_key : bytes;
  _fuzz_database_key : bytes;
  _database : option ExampleDatabase;
  _interesting_examples : gmap (option Origin) bytes;
  seen_arcs : gmap Arc nat;
  minimal_example_arcs : gset Arc;
  ninputs : Z;
  last_new_cov_at : Z;
  pool : list ConjectureResult;
  _replay_buffer : list bytes;
}.

Definition set_random (v : Random) (s : FuzzProcess) : FuzzProcess :=
  {| random := v; fuzz_generator := fuzz_generator s; nodeid := nodeid s;
     _hy_database_key := _hy_database_key s;
     _fuzz_database_key := _fuzz_database_key s; _database := _database s;
     _interesting_examples := _interesting_examples s;
     seen_arcs := seen_arcs s; minimal_example_arcs := minimal_example_arcs s;
     ninputs := ninputs s; last_new_cov_at := last_new_cov_at s;
     pool := pool s; _replay_buffer := _replay_buffer s |}.

Definition set_fuzz_generator (v : Generator) (s : FuzzProcess) : FuzzProcess :=
  {| random := random s; fuzz_generator := v; nodeid := nodeid s;
     _hy_database_key := _hy_database_key s;
     _fuzz_database_key := _fuzz_database_key s; _database := _database s;
     _interesting_examples := _interesting_examples s;
     seen_arcs := seen_arcs s; minimal_example_arcs := minimal_example_arcs s;
     ninputs := ninputs s; last_new_cov_at := last_new_cov_at s;
     pool := pool s; _replay_buffer := _replay_buffer s |}.

Definition set_database (v : option ExampleDatabase) (s : FuzzProcess) : FuzzProcess :=
  {| random := random s; fuzz_generator := fuzz_generator s; nodeid := nodeid s;
     _hy_database_key := _hy_database_key s;
     _fuzz_database_key := _fuzz_database_key s; _database := v;
     _interesting_examples := _interesting_examples s;
     seen_arcs := seen_arcs s; minimal_example_arcs := minimal_example_arcs s;
     ninputs := ninputs s; last_new_cov_at := last_new_cov_at s;
     pool := pool s; _replay_buffer := _replay_buffer s |}.

Definition set_interesting_examples (v : gmap (option Origin) bytes)
    (s : FuzzProcess) : FuzzProcess :=
  {| random := random s; fuzz_generator := fuzz_generator s; nodeid := nodeid s;
     _hy_database_key := _hy_database_key s;
     _fuzz_database_key := _fuzz_database_key s; _database := _database s;
     _interesting_examples := v;
     seen_arcs := seen_arcs s; minimal_example_arcs := minimal_example_arcs s;
     ninputs := ninputs s; last_new_cov_at := last_new_cov_at s;
     pool := pool s; _replay_buffer := _replay_buffer s |}.

Definition set_seen_arcs (v : gmap Arc nat) (s : FuzzProcess) : FuzzProcess :=
  {| random := random s; fuzz_generator := fuzz_generator s; nodeid := nodeid s;
     _hy_database_key := _hy_database_key s;
     _fuzz_database_key := _fuzz_database_key s; _database := _database s;
     _interesting_examples := _interesting_examples s;
     seen_arcs := v; minimal_example_arcs := minimal_example_arcs s;
     ninputs := ninputs s; last_new_cov_at := last_new_cov_at s;
     pool := pool s; _replay_buffer := _replay_buffer s |}.

Definition set_minimal_example_arcs (v : gset Arc) (s : FuzzProcess) : FuzzProcess :=
  {| random := random s; fuzz_generator := fuzz_generator s; nodeid := nodeid s;
     _hy_database_key := _hy_database_key s;
     _fuzz_database_key := _fuzz_database_key s; _database := _database s;
     _interesting_examples := _interesting_examples s;
     seen_arcs := seen_arcs s; minimal_example_arcs := v;
     ninputs := ninputs s; last_new_cov_at := last_new_cov_at s;
     pool := pool s; _replay_buffer := _replay_buffer s |}.

Definition set_ninputs (v : Z) (s : FuzzProcess) : FuzzProcess :=
  {| random := random s; fuzz_generator := fuzz_generator s; nodeid := nodeid s;
     _hy_database_key := _hy_database_key s;
     _fuzz_database_key := _fuzz_database_key s; _database := _database s;
     _interesting_examples := _interesting_examples s;
     seen_arcs := seen_arcs s; minimal_example_arcs := minimal_example_arcs s;
     ninputs := v; last_new_cov_at := last_new_cov_at s;
     pool := pool s; _replay_buffer := _replay_buffer s |}.

Definition set_last_new_cov_at (v : Z) (s : FuzzProcess) : FuzzProcess :=
  {| random := random s; fuzz_generator := fuzz_generator s; nodeid := nodeid s;
     _hy_database_key := _hy_database_key s;
     _fuzz_database_key := _fuzz_database_key s; _database := _database s;
     _interesting_examples := _interesting_examples s;
     seen_arcs := seen_arcs s; minimal_example_arcs := minimal_example_arcs s;
     ninputs := ninputs s; last_new_cov_at := v;
     pool := pool s; _replay_buffer := _replay_buffer s |}.

Definition set_pool (v : list ConjectureResult) (s : FuzzProcess) : FuzzProcess :=
  {| random := random s; fuzz_generator := fuzz_generator s; nodeid := nodeid s;
     _hy_database_key := _hy_database_key s;
     _fuzz_database_key := _fuzz_database_key s; _database := _database s;
     _interesting_examples := _interesting_examples s;
     seen_arcs := seen_arcs s; minimal_example_arcs := minimal_example_arcs s;
     ninputs := ninputs s; last_new_cov_at := last_new_cov_at s;
     pool := v; _replay_buffer := _replay_buffer s |}.

Definition set_replay_buffer (v : list bytes) (s : FuzzProcess) : FuzzProcess :=
  {| random := random s; fuzz_generator := fuzz_generator s; nodeid := nodeid s;
     _hy_database_key := _hy_database_key s;
     _fuzz_database_key := _fuzz_database_key s; _database := _database s;
     _interesting_examples := _interesting_examples s;
     seen_arcs := seen_arcs s; minimal_example_arcs := minimal_example_arcs s;
     ninputs := ninputs s; last_new_cov_at := last_new_cov_at s;
     pool := pool s; _replay_buffer := v |}.

(** *** Methods: state and exceptions *)

Definition M (A : Type) : Type := FuzzProcess → outcome A * FuzzProcess.

#[global] Instance M_ret : MRet M := λ A a self, (Ok a, self).

#[global] Instance M_bind : MBind M := λ A B k m self,
  match m self with
  | (Ok a, self') => k a self'
  | (Raise e, self') => (Raise e, self')
  end.

Definition raise {A} (e : exn) : M A := λ self, (Raise e, self).
Definition get : M FuzzProcess := λ self, (Ok self, self).
Definition modify (f : FuzzProcess → FuzzProcess) : M unit := λ self, (Ok tt, f self).
Definition assert_ (b : bool) : M unit := if b then mret tt else raise AssertionError.
Definition when (b : bool) (m : M unit) : M unit := if b then m else mret tt.


(** *** Containers *)

(** [frozenset.symmetric_difference]. *)
Definition symmetric_difference (X Y : gset Arc) : gset Arc := (X ∖ Y) ∪ (Y ∖ X).

(** [Counter.update(iterable)]: one more hit for every element. *)
Definition Counter_update (elems : gset Arc) (c : gmap Arc nat) : gmap Arc nat :=
  set_fold (λ a acc, <[a := S (default 0%nat (acc !! a))]> acc) c elems.

(** [SortedKeyList(key=sort_key).add]: insertion after the entries whose
    key is not greater. *)
Fixpoint SortedKeyList_add (value : ConjectureResult) (l : list ConjectureResult)
  : list ConjectureResult :=
  match l with
  | [] => [value]
  | x :: l' =>
      if tuple_lt (sort_key (inr value)) (sort_key (inr x)) then value :: x :: l'
      else x :: SortedKeyList_add value l'
  end.

(** [dict.setdefault(key, default)]: the value stored under the key, after
    storing the default when the key is absent. *)
Definition setdefault (key : option Origin) (default0 : bytes)
    (d : gmap (option Origin) bytes) : bytes * gmap (option Origin) bytes :=
  match d !! key with
  | Some v => (v, d)
  | None => (default0, <[key := default0]> d)
  end.

(** [list.pop()]: removes and returns the last item. *)
Definition list_pop {A} (l : list A) : option (A * list A) :=
  match last l with
  | Some x => Some (x, removelast l)
  | None => None
  end.

(** [b[:stop]] for an integer [stop]. *)
Definition slice_to (stop : Z) (b : bytes) : bytes :=
  if stop <? 0 then take (Z.to_nat (Z.of_nat (length b) + stop)) b
  else take (Z.to_nat stop) b.

(** The order of [sorted(..., key=sort_key, reverse=True)]. *)
Definition key_ge (x y : bytes) : Prop :=
  tuple_le (sort_key (inl y)) (sort_key (inl x)) = true.

#[global] Instance key_ge_dec : RelDecision key_ge.
Proof. intros x y. unfold key_ge. apply _. Defined.

Definition sorted_reverse (s : gset bytes) : list bytes :=
  merge_sort key_ge (elements s).

(** [self._database.save(key, value)]; [None] has no attribute [save]. *)
Definition database_save (key value : bytes) : M unit :=
  self ← get;
  match _database self with
  | None => raise AttributeError
  | Some db => modify (set_database (Some (ExampleDatabase_save key value db)))
  end.

(** [next(self.fuzz_generator)] and [self.fuzz_generator.send(value)]. *)
Definition fuzz_generator_send (value : option bytes) : M Yielded :=
  λ self,
    let '(r, g) := Generator_send value (fuzz_generator self) in
    (r, set_fuzz_generator g self).

(** Draws from [self.random]. *)
Definition random_random : M Q :=
  λ self, let '(x, r) := Random_random (random self) in (Ok x, set_random r self).

Definition random_randint (a b : Z) : M Z :=
  λ self, let '(x, r) := Random_randint a b (random self) in (Ok x, set_random r self).

(** [self.random.choices(population, weights=None, k=...)]: every choice
    is [population[floor(random() * len(population))]]. *)
Fixpoint random_choices {A} (population : list A) (k : nat) : M (list A) :=
  match k with
  | O => mret []
  | S k' =>
      x ← random_random;
      match population !! Z.to_nat (Qfloor (x * inject_Z (Z.of_nat (length population)))) with
      | None => raise IndexError
      | Some c => cs ← random_choices population k'; mret (c :: cs)
      end
  end.

(** *** [FuzzProcess.__init__] *)

Definition fuzz_prefix : bytes := [x66; x75; x7a; x7a; x5f].   (* b"fuzz_" *)

Definition __init__ (qualname : string) (function_digest : bytes)
    (default_database : option ExampleDatabase)
    (random_seed : Z) (nodeid0 : option string) (database_key : bytes)
    (hypothesis_database : option ExampleDatabase) : FuzzProcess :=
  let hy_key := if decide (database_key = []) then function_digest else database_key in
  {| random := Random_new random_seed;
     fuzz_generator := fuzz_in_generator (TestState_new random_seed);
     nodeid := match nodeid0 with
               | Some n => if decide (n = EmptyString) then qualname else n
               | None => qualname
               end;
     _hy_database_key := hy_key;
     _fuzz_database_key := fuzz_prefix ++ hy_key;
     _database := match hypothesis_database with
                  | Some db => Some db
                  | None => default_database
                  end;
     _interesting_examples := ∅;
     seen_arcs := ∅;
     minimal_example_arcs := ∅;
     ninputs := 0;
     last_new_cov_at := 0;
     pool := [];
     _replay_buffer := [] |}.

(** *** Reporting *)

Record JsonDescription := {
  json_nodeid : string;
  json_ninputs : Z;
  json_arcs : nat;
  json_estimated_value : float;
  json_since_new_cov : Z;
  json_note : string;
}.

(** [estimated_value_of_next_run]: [1 / (1 + ninputs - last_new_cov_at)],
    a division of [int]s that gives a float; a division by zero raises. *)
Definition estimated_value_of_next_run : M float :=
  self ← get;
  let d := 1 + ninputs self - last_new_cov_at self in
  if d =? 0 then raise ZeroDivisionError
  else mret (int_truediv 1 d).

Definition has_found_failure (self : FuzzProcess) : bool :=
  bool_decide (_interesting_examples self ≠ ∅).

Definition _json_description : M JsonDescription :=
  self ← get;
  let note :=
    if has_found_failure self then "found failing example"%string
    else if bool_decide (_replay_buffer self ≠ []) then "replaying saved examples"%string
    else if ninputs self =? 0 then "starting up..."%string
    else EmptyString in
  v ← estimated_value_of_next_run;
  mret {| json_nodeid := nodeid self;
          json_ninputs := ninputs self;
          json_arcs := size (seen_arcs self);
          json_estimated_value := v;
          json_since_new_cov := ninputs self - last_new_cov_at self;
          json_note := note |}.

(** The hook does nothing until it is replaced. *)
Definition _report_change (data : JsonDescription) : M unit := mret tt.

(** *** [FuzzProcess._update]

    [assert isinstance(result, ConjectureResult)] holds by typing. *)

Definition _update (result : ConjectureResult) : M unit :=
  if decide (status result = OVERRUN) then mret tt
  else
    self ← get;
    let arcs :=
      symmetric_difference (minimal_example_arcs self) (extra_information_arcs result) in
    when (bool_decide (arcs ∖ dom (seen_arcs self) ≠ ∅)) (
      database_save (_fuzz_database_key self) (buffer result);;
      self ← get;
      modify (set_last_new_cov_at (ninputs self));;
      self ← get;
      modify (set_pool (SortedKeyList_add result (pool self))));;
    when (bool_decide (status result = INTERESTING)) (
      self ← get;
      let '(x, d) := setdefault (interesting_origin result) (buffer result)
                       (_interesting_examples self) in
      modify (set_interesting_examples d);;
      self ← get;
      when (bool_decide (is_Some (_database self))
            && tuple_le (sort_key (inr result)) (sort_key (inl x)))
        (database_save (_hy_database_key self) (buffer result)));;
    self ← get;
    when ((ninputs self `mod` 100 =? 0)
          || negb (bool_decide (arcs ⊆ dom (seen_arcs self)))) (
      data ← _json_description;
      _report_change data);;
    self ← get;
    modify (set_seen_arcs (Counter_update arcs (seen_arcs self))).

(** *** [FuzzProcess.startup]

    [firstresult.extra_information.arcs] is read from what the generator
    yielded for the all-zero buffer; [Overrun] has no such attribute. *)

Definition startup : M unit :=
  self ← get;
  assert_ (bool_decide (pool self = []));;
  data ← _json_description;
  _report_change data;;
  fuzz_generator_send None;;
  self ← get;
  modify (set_ninputs (ninputs self + 1));;
  firstresult ← fuzz_generator_send (Some (replicate BUFFER_SIZE x00));
  match firstresult with
  | Overrun => raise AttributeError   (* firstresult.extra_information *)
  | Result firstresult =>
      modify (set_minimal_example_arcs (extra_information_arcs firstresult));;
      self ← get;
      modify (set_pool (SortedKeyList_add firstresult (pool self)));;
      _update firstresult;;
      self ← get;
      match _database self with
      | Some db =>
          modify (set_replay_buffer
                    (sorted_reverse
                       (ExampleDatabase_fetch (_hy_database_key self) db
                        ∪ ExampleDatabase_fetch (_fuzz_database_key self) db)))
      | None => mret tt
      end
  end.

(** *** [FuzzProcess.generate_prefix] *)

(** [bytes(self.random.randint(0, 255) for _ in range(n))]. *)
Fixpoint _gen_bytes_loop (n : nat) : M bytes :=
  match n with
  | O => mret []
  | S n' =>
      v ← random_randint 0 255;
      match (if (0 <=? v) && (v <? 256) then Byte.of_N (Z.to_N v) else None) with
      | None => raise ValueError
      | Some b => bs ← _gen_bytes_loop n'; mret (b :: bs)
      end
  end.

Definition _gen_bytes (n : Z) : M bytes := _gen_bytes_loop (Z.to_nat n).

Definition generate_prefix : M bytes :=
  self ← get;
  match list_pop (_replay_buffer self) with
  | Some (b, rest) => modify (set_replay_buffer rest);; mret b
  | None =>
      unguided ← (if ninputs self <? 100 then mret true
                  else x ← random_random; mret (Qle_bool x (1 # 100)));
      if unguided : bool then mret []
      else
        choices ← random_choices (pool self) 2;
        match choices with
        | [prefix; postfix] =>
            r1 ← random_randint 0 (Z.of_nat (length (buffer prefix)));
            n ← random_randint 0 9;
            middle ← _gen_bytes n;
            r3 ← random_randint 0 (Z.of_nat (length (buffer postfix)));
            mret (slice_to r1 (buffer prefix) ++ middle ++ slice_to r3 (buffer postfix))
        | _ => raise ValueError
        end
  end.

(** *** [FuzzProcess.run_one] *)

(** The block under [# Run the input]; its value is [result]. *)
Definition run_input : M Yielded :=
  fuzz_generator_send None;;
  prefix ← generate_prefix;
  fuzz_generator_send (Some prefix).

(** [assert result] holds of both objects that the generator yields, and
    the [assert isinstance(result, ConjectureResult)] of [_update] fails
    for [Overrun]. *)
Definition run_one : M unit :=
  self ← get;
  assert_ (bool_decide (pool self ≠ []));;
  modify (set_ninputs (ninputs self + 1));;
  result ← run_input;
  when (Status_value OVERRUN <? Status_value (Yielded_status result))
    match result with
    | Result result => _update result
    | Overrun => raise AssertionError
    end.

(** [n] successive calls of [generate_prefix], and what they returned. *)
Fixpoint drain (n : nat) : M (list bytes) :=
  match n with
  | O => mret []
  | S n' => b ← generate_prefix; bs ← drain n'; mret (b :: bs)
  end.

(** *** The scheduling key of [fuzz_several]

    [lambda t: -t.estimated_value_of_next_run], the key of the
    [SortedKeyList] of targets, also called afresh on [targets[0]] and
    [targets[1]] to decide whether the head is put back in order. *)
Definition fuzz_several_key : M float :=
  v ← estimated_value_of_next_run;
  mret (SFopp v).

(** *** Notions used in the statements *)

(** The novelty set of a result: [arcs.difference(self.seen_arcs)]. *)
Definition novelty (self : FuzzProcess) (result : ConjectureResult) : gset Arc :=
  symmetric_difference (minimal_example_arcs self) (extra_information_arcs result)
  ∖ dom (seen_arcs self).

(** The buffers stored under a key in the target's database. *)
Definition saved_under (key : bytes) (self : FuzzProcess) : gset bytes :=
  match _database self with
  | Some db => ExampleDatabase_fetch key db
  | None => ∅
  end.

(** What the generator yields for the all-zero buffer that [startup]
    sends after its [next]: the baseline execution. *)
Definition baseline (self : FuzzProcess) : outcome Yielded :=
  (Generator_send (Some (replicate BUFFER_SIZE x00))
     (Generator_send None (fuzz_generator self)).2).1.

(** [last_new_cov_at] is the index of an earlier trial. *)
Definition counters_ok (self : FuzzProcess) : Prop :=
  last_new_cov_at self ≤ ninputs self.

(** The fuzz key is derived from the primary key as in [__init__]. *)
Definition keys_ok (self : FuzzProcess) : Prop :=
  _fuzz_database_key self = fuzz_prefix ++ _hy_database_key self.

#[global] Instance counters_ok_dec (self : FuzzProcess) : Decision (counters_ok self).
Proof. unfold counters_ok. apply _. Defined.

#[global] Instance keys_ok_dec (self : FuzzProcess) : Decision (keys_ok self).
Proof. unfold keys_ok. apply _. Defined.

(** What [run_input] leaves alone: every attribute but [random],
    [fuzz_generator] and [_replay_buffer]. *)
Definition same_data (s s' : FuzzProcess) : Prop :=
  nodeid s' = nodeid s ∧
  _hy_database_key s' = _hy_database_key s ∧
  _fuzz_database_key s' = _fuzz_database_key s ∧
  _database s' = _database s ∧
  _interesting_examples s' = _interesting_examples s ∧
  seen_arcs s' = seen_arcs s ∧
  minimal_example_arcs s' = minimal_example_arcs s ∧
  ninputs s' = ninputs s ∧
  last_new_cov_at s' = last_new_cov_at s ∧
  pool s' = pool s.

Definition keeps_data {A} (m : M A) : Prop := ∀ s, same_data s (m s).2.

(** A method that leaves one attribute, or a function of the attributes,
    as it is. *)
Definition keeps_field {A T} (f : FuzzProcess → T) (m : M A) : Prop :=
  ∀ s, f (m s).2 = f s.

(** Strict shortlex order on buffers. *)
Definition key_lt (x y : bytes) : Prop :=
  tuple_lt (sort_key (inl x)) (sort_key (inl y)) = true.

(** The order that a [SortedKeyList(key=sort_key)] keeps its items in. *)
Definition key_le_result (r1 r2 : ConjectureResult) : Prop :=
  tuple_le (sort_key (inr r1)) (sort_key (inr r2)) = true.

Definition pool_sorted (self : FuzzProcess) : Prop :=
  StronglySorted key_le_result (pool self).

(** What [random.Random] promises: [random()] is in [0, 1) and
    [randint(a, b)] is in [a, b]. *)
Definition random_in_unit_interval : Prop :=
  ∀ r, (0 <= (Random_random r).1)%Q ∧ ((Random_random r).1 < 1)%Q.

Definition randint_in_range : Prop :=
  ∀ a b r, a ≤ b → a ≤ (Random_randint a b r).1 ≤ b.

(** The objects that a driver can hold: a constructed target, after any
    number of calls of [startup] and [run_one], whether they returned or
    raised. *)
Inductive reachable : FuzzProcess → Prop :=
  | reachable_init qualname digest default_database seed nodeid0 key database :
      reachable (__init__ qualname digest default_database seed nodeid0 key database)
  | reachable_startup st : reachable st → reachable (startup st).2
  | reachable_run_one st : reachable st → reachable (run_one st).2.

End FuzzProcess.

(** ** A concrete substrate

    Arcs and origins are strings, the random source is a linear
    congruential generator, and the test function is kept as the function
    from buffers to results that one execution computes. *)

Definition demo_types : CoverageTypes :=
  {| Arc := string; Origin := string |}.

Definition demo_substrate : @Substrate demo_types :=
  {| BUFFER_SIZE := 8 * 1024;
     Random := Z;
     Random_new := λ seed, seed;
     Random_random := λ s, (Qmake (s `mod` 1000) 1000, (s * 75 + 74) `mod` 65537);
     Random_randint := λ a b s, (a + s `mod` (b - a + 1), (s * 75 + 74) `mod` 65537);
     TestState := bytes → @ConjectureResult demo_types;
     TestState_new := λ _ buf,
       {| buffer := buf; status := VALID;
          extra_information_arcs := ∅; interesting_origin := None |};
     run_test := λ buf test, (test buf, test) |}.

Section Demo.
#[local] Existing Instance demo_types.
#[local] Existing Instance demo_substrate.

(** A target over the test function [test], with the primary key [b"k"]. *)
Definition demo_target (test : bytes → ConjectureResult)
    (db : option ExampleDatabase) : FuzzProcess :=
  set_fuzz_generator (fuzz_in_generator test)
    (__init__ "test_demo" [x74] None 0 None [x6b] db).

Definition demo_result (st : Status) (b : bytes) (cov : list string)
    (origin : option string) : ConjectureResult :=
  {| buffer := b; status := st;
     extra_information_arcs := list_to_set cov; interesting_origin := origin |}.

(** A test function that covers [cov] on the all-zero first buffer and
    behaves as [r] afterwards. *)
Definition demo_test (cov : list string) (r : ConjectureResult) (buf : bytes)
  : ConjectureResult :=
  if decide (length buf = BUFFER_SIZE) then demo_result VALID [x00] cov None
  else r.

(** The target after [startup]. *)
Definition demo_started (cov : list string) (r : ConjectureResult)
    (db : option ExampleDatabase) : FuzzProcess :=
  (startup (demo_target (demo_test cov r) db)).2.

(** Two failures of one origin, with buffers of 10 and of 4 bytes. *)
Definition demo_fail10 : ConjectureResult :=
  demo_result INTERESTING (replicate 10 x01) ["a"; "b"] (Some "AssertionError t.py 3").

Definition demo_fail4 : ConjectureResult :=
  demo_result INTERESTING (replicate 4 x01) ["a"; "b"] (Some "AssertionError t.py 3").

(** Results that cover the new arc ["d"]. *)
Definition demo_novel (st : Status) : ConjectureResult :=
  demo_result st [x05] ["a"; "c"; "d"] None.

(** A started target with baseline arcs a, b and an empty database. *)
Definition demo_ab (r : ConjectureResult) : FuzzProcess :=
  demo_started ["a"; "b"] r (Some ∅).

(** The same target after a result covering only c: a, b and c are seen. *)
Definition demo_seen_abc : FuzzProcess :=
  (_update (demo_result VALID [x01] ["c"] None) (demo_ab (demo_novel VALID))).2.

(** A database with a two-byte buffer under the primary key and a one-byte
    buffer under the fuzz key. *)
Definition demo_saved : ExampleDatabase :=
  ExampleDatabase_save (fuzz_prefix ++ [x6b]) [x03]
    (ExampleDatabase_save [x6b] [x01; x02] ∅).

(** A constructed target with an empty database, and a state in which the
    first 100 trials are over and [random()] exceeds 0.01. *)
Definition demo_fresh : FuzzProcess :=
  __init__ "test_demo" [x74] None 0 None [x6b] (Some ∅).

Definition demo_late : FuzzProcess :=
  set_random 500 (set_ninputs 150 demo_seen_abc).

(** A constructed target whose database holds [demo_saved]. *)
Definition demo_restart : FuzzProcess :=
  __init__ "test_demo" [x74] None 0 None [x6b] (Some demo_saved).

End Demo.

(** The same substrate with a test function, given at construction, that
    covers a, b on the all-zero buffer and a, c, d on the others. *)
Definition demo_covering : @Substrate demo_types :=
  {| BUFFER_SIZE := @BUFFER_SIZE _ demo_substrate;
     Random := @Random _ demo_substrate;
     Random_new := @Random_new _ demo_substrate;
     Random_random := @Random_random _ demo_substrate;
     Random_randint := @Random_randint _ demo_substrate;
     TestState := @TestState _ demo_substrate;
     TestState_new := λ _, demo_test ["a"; "b"] (demo_novel VALID);
     run_test := @run_test _ demo_substrate |}.

(** A target over it, constructed with an empty database. *)
Definition demo_covering_fresh : @FuzzProcess demo_types demo_covering :=
  @__init__ demo_types demo_covering "test_demo" [x74] None 0 None [x6b] (Some ∅).

(** The same substrate with a test function that covers a, b on the
    all-zero buffer and fails with a four-byte buffer on the others. *)
Definition demo_failing : @Substrate demo_types :=
  {| BUFFER_SIZE := @BUFFER_SIZE _ demo_substrate;
     Random := @Random _ demo_substrate;
     Random_new := @Random_new _ demo_substrate;
     Random_random := @Random_random _ demo_substrate;
     Random_randint := @Random_randint _ demo_substrate;
     TestState := @TestState _ demo_substrate;
     TestState_new := λ _, demo_test ["a"; "b"] demo_fail4;
     run_test := @run_test _ demo_substrate |}.

Definition demo_failing_fresh : @FuzzProcess demo_types demo_failing :=
  @__init__ demo_types demo_failing "test_demo" [x74] None 0 None [x6b] (Some ∅).

(** * Properties *)

(** ** Lemmas on the byte-string order *)

Lemma bytes_lt_irrefl (a : bytes) : bytes_lt a a = false.
Proof. induction a as [|x a IH]; simpl; [done|]. by rewrite decide_True. Qed.

Lemma bytes_lt_trans (a b c : bytes) :
  bytes_lt a b = true → bytes_lt b c = true → bytes_lt a c = true.
Proof.
  revert b c. induction a as [|x a IH]; intros [|y b] [|z c]; simpl; try done.
  repeat case_decide; subst; try done; eauto.
  - intros ?%N.ltb_lt ?%N.ltb_lt. exfalso. lia.
  - intros ?%N.ltb_lt ?%N.ltb_lt. apply N.ltb_lt. lia.
Qed.

Lemma bytes_lt_total (a b : bytes) :
  length a = length b → a ≠ b → bytes_lt a b = true ∨ bytes_lt b a = true.
Proof.
  revert b. induction a as [|x a IH]; intros [|y b]; simpl; try done.
  intros [= Hl] Hne. repeat case_decide; subst; try done.
  - apply IH; [done|congruence].
  - rewrite !N.ltb_lt.
    assert (byte_val x ≠ byte_val y) by (intros ?%byte_val_inj; done). lia.
Qed.

Lemma bytes_lt_lex (a b : bytes) :
  length a = length b → bytes_lt a b = true ↔ lex_precedes a b.
Proof.
  intros Hl. split.
  - revert b Hl. induction a as [|x a IH]; intros [|y b]; simpl; try done.
    intros [= Hl]. case_decide as Hxy.
    + subst y. intros H. destruct (IH _ Hl H) as [(p&u&v&s1&s2&->&->&?)|(v&s&->)].
      * left. by exists (x :: p), u, v, s1, s2.
      * right. by exists v, s.
    + intros ?%N.ltb_lt. left. by exists [], x, y, a, b.
  - intros [(p&u&v&s1&s2&->&->&Huv)|(v&s&->)].
    + clear Hl. induction p as [|w p IH]; simpl.
      * rewrite decide_False; [by apply N.ltb_lt|]. intros ->. lia.
      * by rewrite decide_True.
    + rewrite length_app in Hl. simpl in Hl. lia.
Qed.

(** ** Lemmas on float division *)

Lemma digits2_pos_spec (p : positive) :
  2 ^ (Z.pos (digits2_pos p) - 1) ≤ Z.pos p ∧ Z.pos p < 2 ^ Z.pos (digits2_pos p).
Proof.
  induction p as [p IH|p IH|]; cbn [digits2_pos].
  - rewrite Pos2Z.inj_succ.
    replace (Z.succ (Z.pos (digits2_pos p)) - 1)
      with (Z.succ (Z.pos (digits2_pos p) - 1)) by lia.
    rewrite !Z.pow_succ_r by lia. lia.
  - rewrite Pos2Z.inj_succ.
    replace (Z.succ (Z.pos (digits2_pos p)) - 1)
      with (Z.succ (Z.pos (digits2_pos p) - 1)) by lia.
    rewrite !Z.pow_succ_r by lia. lia.
  - simpl. lia.
Qed.

Lemma Zdigits2_unique (m k : Z) :
  2 ^ (k - 1) ≤ m → m < 2 ^ k → 0 < k → Zdigits2 m = k.
Proof.
  intros Hlo Hhi Hk. destruct m as [|p|p].
  - pose proof (Z.pow_pos_nonneg 2 (k - 1)). lia.
  - simpl. pose proof (digits2_pos_spec p) as [Hl Hh].
    destruct (Z.lt_trichotomy (Z.pos (digits2_pos p)) k) as [Hlt|[->|Hgt]];
      [|reflexivity|].
    + assert (2 ^ Z.pos (digits2_pos p) ≤ 2 ^ (k - 1))
        by (apply Z.pow_le_mono_r; lia). lia.
    + assert (2 ^ k ≤ 2 ^ (Z.pos (digits2_pos p) - 1))
        by (apply Z.pow_le_mono_r; lia). lia.
  - pose proof (Z.pow_pos_nonneg 2 (k - 1)). lia.
Qed.

(** Where the remainder [r] of a division by [d] lies: at zero, below,
    at or above the half of [d]. *)
Lemma new_location_spec (d r : Z) :
  0 ≤ r < d →
  match new_location d r with
  | loc_Exact => r = 0
  | loc_Inexact Lt => 0 < 2 * r ∧ 2 * r < d
  | loc_Inexact Eq => 2 * r = d
  | loc_Inexact Gt => d < 2 * r
  end.
Proof.
  intros Hr. unfold new_location, new_location_even, new_location_odd.
  destruct (Z.even d) eqn:He.
  - destruct (Z.eqb_spec r 0) as [|Hne]; [assumption|].
    destruct (Z.compare_spec (2 * r) d); lia.
  - destruct (Z.eqb_spec r 0) as [|Hne]; [assumption|].
    assert (Z.odd d = true) as Ho by (rewrite <- Z.negb_even, He; reflexivity).
    apply Z.odd_spec in Ho as [c Hc].
    destruct (Z.compare_spec (2 * r + 1) d); lia.
Qed.

(** Rounding a mantissa of 53 bits and the position of the remainder to
    nearest, ties to even: no shift is needed. *)
Lemma binary_round_aux_53 (m e : Z) (l : location) :
  2 ^ 52 ≤ m → round_nearest_even m l < 2 ^ 53 → -1074 ≤ e ≤ 971 →
  binary_round_aux 53 1024 false m e l =
  S754_finite false (Z.to_pos (round_nearest_even m l)) e.
Proof.
  intros Hlo Hhi He.
  assert (m ≤ round_nearest_even m l) as Hle.
  { unfold round_nearest_even. destruct l as [|[]]; try destruct (Z.even m); lia. }
  assert (Zdigits2 m = 53) as Hd by (apply Zdigits2_unique; lia).
  assert (Zdigits2 (round_nearest_even m l) = 53) as Hd'
    by (apply Zdigits2_unique; lia).
  unfold binary_round_aux, shr_fexp. rewrite Hd.
  assert (fexp 53 1024 (53 + e) - e = 0) as -> by (unfold fexp, emin; lia).
  cbn [shr].
  assert (shr_m (shr_record_of_loc m l) = m) as ->
    by (destruct l as [|[]]; reflexivity).
  assert (loc_of_shr_record (shr_record_of_loc m l) = l) as ->
    by (destruct l as [|[]]; reflexivity).
  rewrite Hd'.
  assert (fexp 53 1024 (53 + e) - e = 0) as -> by (unfold fexp, emin; lia).
  cbn [shr shr_record_of_loc shr_m].
  destruct (round_nearest_even m l) as [|p|p] eqn:E; try lia.
  assert ((e <=? 1024 - 53) = true) as -> by (apply Z.leb_le; lia).
  reflexivity.
Qed.

(** The exact mantissa [2^53] has 54 bits and loses its last one. *)
Lemma binary_round_aux_pow53 (e : Z) :
  -1075 ≤ e ≤ 970 →
  binary_round_aux 53 1024 false (2 ^ 53) e loc_Exact =
  S754_finite false 4503599627370496 (e + 1).
Proof.
  intros He. unfold binary_round_aux, shr_fexp.
  change (Zdigits2 (2 ^ 53)) with 54.
  assert (fexp 53 1024 (54 + e) - e = 1) as -> by (unfold fexp, emin; lia).
  cbn [shr shr_record_of_loc].
  change (SpecFloat.iter_pos shr_1 1
            {| shr_m := 2 ^ 53; shr_r := false; shr_s := false |})
    with {| shr_m := 2 ^ 52; shr_r := false; shr_s := false |}.
  cbn [shr_m loc_of_shr_record round_nearest_even].
  change (Zdigits2 (2 ^ 52)) with 53.
  assert (fexp 53 1024 (53 + (e + 1)) - (e + 1) = 0) as ->
    by (unfold fexp, emin; lia).
  cbn [shr shr_record_of_loc shr_m].
  change (2 ^ 52) with 4503599627370496.
  assert ((e + 1 <=? 1024 - 53) = true) as -> by (apply Z.leb_le; lia).
  reflexivity.
Qed.

(** [1 / d] for [1 <= d < 2^53], with [N] the number of bits of [d - 1]
    plus 52: the float is [m * 2^-N] for a mantissa [m] of 53 bits that is
    an integer nearest to [2^N / d]. *)
Lemma int_truediv_1_spec (d : Z) :
  1 ≤ d < 2 ^ 53 →
  ∃ m, int_truediv 1 d = S754_finite false m (- (Z.log2_up d + 52)) ∧
    2 ^ 52 ≤ Z.pos m < 2 ^ 53 ∧
    Z.abs (2 * (Z.pos m * d - 2 ^ (Z.log2_up d + 52))) ≤ d.
Proof.
  intros Hd. destruct d as [|p|p]; try lia.
  pose proof (digits2_pos_spec p) as Hdig.
  set (n := Z.pos (digits2_pos p)) in *.
  assert (1 ≤ n ≤ 53) as Hn.
  { split; [unfold n; lia|].
    destruct (Z_le_gt_dec n 53) as [|Hgt]; [assumption|].
    assert (2 ^ 53 ≤ 2 ^ (n - 1)) by (apply Z.pow_le_mono_r; lia). lia. }
  unfold int_truediv, int_operand, SFdiv, SFdiv_core_binary.
  change (Zdigits2 1) with 1. cbn [Zdigits2]. fold n.
  assert (Z.min (fexp 53 1024 (1 + 0 - (n + 0))) (0 - 0) = - (n + 52)) as ->
    by (unfold fexp, emin; lia).
  replace (0 - 0 - - (n + 52)) with (n + 52) by lia.
  assert (match n + 52 with
          | 0 => 1
          | Z.pos _ => Z.shiftl 1 (n + 52)
          | Z.neg _ => 0
          end = 2 ^ (n + 52)) as ->.
  { destruct (n + 52) eqn:E; try lia. by rewrite Z.shiftl_1_l. }
  pose proof (Z_div_mod (2 ^ (n + 52)) (Z.pos p) ltac:(lia)) as Hdiv.
  destruct (Z.div_eucl (2 ^ (n + 52)) (Z.pos p)) as [q r].
  destruct Hdiv as [Hq Hr].
  assert (2 ^ (n + 52) = 2 ^ 53 * 2 ^ (n - 1)) as Hpow.
  { rewrite <- Z.pow_add_r by lia. f_equal. lia. }
  assert (2 ^ n = 2 * 2 ^ (n - 1)) as Hpow'.
  { rewrite <- Z.pow_succ_r by lia. f_equal. lia. }
  pose proof (Z.pow_pos_nonneg 2 (n - 1) ltac:(lia) ltac:(lia)) as Hpos.
  change (xorb false false) with false.
  destruct (Z.eq_dec (Z.pos p) (2 ^ (n - 1))) as [Hp2|Hp2].
  - (* a power of two: the quotient is exact *)
    assert (q = 2 ^ 53 ∧ r = 0) as [-> ->].
    { rewrite Hpow, Hp2 in Hq. rewrite Hp2 in Hr. clear - Hq Hr Hpos.
      revert Hq Hr Hpos. generalize (2 ^ (n - 1)). intros P Hq Hr Hpos.
      assert (q = 2 ^ 53) by nia. split; [assumption|]. subst q. lia. }
    assert (Z.log2_up (Z.pos p) = n - 1) as Hlog.
    { rewrite Hp2. apply Z.log2_up_pow2. lia. }
    assert (new_location (Z.pos p) 0 = loc_Exact) as ->.
    { unfold new_location, new_location_even, new_location_odd.
      by destruct (Z.even _). }
    rewrite binary_round_aux_pow53 by lia.
    exists 4503599627370496%positive. rewrite Hlog.
    split; [f_equal; lia|]. split; [simpl; lia|].
    change (Z.pos 4503599627370496) with (2 ^ 52).
    replace (n - 1 + 52) with (52 + (n - 1)) by lia.
    rewrite Z.pow_add_r by lia. rewrite Hp2. lia.
  - assert (Z.log2_up (Z.pos p) = n) as Hlog.
    { apply Z.log2_up_unique; [lia|]. replace (Z.pred n) with (n - 1) by lia. lia. }
    pose proof (new_location_spec (Z.pos p) r Hr) as Hloc.
    assert (2 ^ 52 ≤ q ∧ q + 1 < 2 ^ 53) as [Hq1 Hq2] by nia.
    assert (round_nearest_even q (new_location (Z.pos p) r) = q ∨
            round_nearest_even q (new_location (Z.pos p) r) = q + 1) as Hrne.
    { unfold round_nearest_even.
      destruct (new_location _ _) as [|[]]; try destruct (Z.even q); auto. }
    rewrite binary_round_aux_53 by lia.
    eexists. rewrite Hlog. split; [reflexivity|].
    rewrite Z2Pos.id by lia. split; [lia|].
    unfold round_nearest_even in *.
    destruct (new_location (Z.pos p) r) as [|[]]; try destruct (Z.even q); nia.
Qed.

Lemma float_lt_finite (m1 m2 : positive) (e1 e2 : Z) :
  float_lt (S754_finite false m1 e1) (S754_finite false m2 e2) = true ↔
  e1 < e2 ∨ (e1 = e2 ∧ Z.pos m1 < Z.pos m2).
Proof.
  unfold float_lt, SFltb, SFcompare.
  change (Pos.compare_cont Eq m1 m2) with (m1 ?= m2)%positive.
  destruct (Z.compare_spec e1 e2) as [He|He|He];
    [destruct (Pos.compare_spec m1 m2) as [Hm|Hm|Hm]| |]; split;
    try done; try lia; auto with lia.
Qed.

Lemma float_le_finite_neg (m1 m2 : positive) (e1 e2 : Z) :
  float_le (S754_finite true m1 e1) (S754_finite true m2 e2) =
  float_le (S754_finite false m2 e2) (S754_finite false m1 e1).
Proof.
  unfold float_le, SFleb, SFcompare.
  change (Pos.compare_cont Eq m1 m2) with (m1 ?= m2)%positive.
  change (Pos.compare_cont Eq m2 m1) with (m2 ?= m1)%positive.
  rewrite (Z.compare_antisym e1 e2), (Pos.compare_antisym m1 m2).
  by destruct (e1 ?= e2); simpl; [destruct (m1 ?= m2)%positive| |].
Qed.

Lemma float_lt_finite_neg (m1 m2 : positive) (e1 e2 : Z) :
  float_lt (S754_finite true m1 e1) (S754_finite true m2 e2) =
  float_lt (S754_finite false m2 e2) (S754_finite false m1 e1).
Proof.
  unfold float_lt, SFltb, SFcompare.
  change (Pos.compare_cont Eq m1 m2) with (m1 ?= m2)%positive.
  change (Pos.compare_cont Eq m2 m1) with (m2 ?= m1)%positive.
  rewrite (Z.compare_antisym e1 e2), (Pos.compare_antisym m1 m2).
  by destruct (e1 ?= e2); simpl; [destruct (m1 ?= m2)%positive| |].
Qed.

(** Up to [2^52] a greater divisor gives a strictly smaller quotient. *)
Lemma int_truediv_1_lt_iff (d1 d2 : Z) :
  1 ≤ d1 ≤ 2 ^ 52 → 1 ≤ d2 ≤ 2 ^ 52 →
  float_lt (int_truediv 1 d2) (int_truediv 1 d1) = true ↔ d1 < d2.
Proof.
  assert (∀ a b, 1 ≤ a → a < b → b ≤ 2 ^ 52 →
            float_lt (int_truediv 1 b) (int_truediv 1 a) = true) as Hmono.
  { intros a b Ha Hab Hb.
    destruct (int_truediv_1_spec a) as (ma & -> & Hma & Hna); [lia|].
    destruct (int_truediv_1_spec b) as (mb & -> & Hmb & Hnb); [lia|].
    apply float_lt_finite.
    pose proof (Z.log2_up_le_mono a b ltac:(lia)) as Hlog.
    destruct (Z.eq_dec (Z.log2_up a) (Z.log2_up b)) as [E|E]; [|left; lia].
    right. split; [lia|]. rewrite E in Hna.
    revert Hna Hnb. generalize (2 ^ (Z.log2_up b + 52)). intros T Hna Hnb.
    destruct (Z_lt_le_dec (Z.pos mb) (Z.pos ma)) as [|Hle]; [done|]. exfalso.
    assert (Z.pos ma * a ≤ Z.pos mb * a) by nia.
    assert (2 ^ 52 * (b - a) ≤ Z.pos mb * (b - a)) by nia.
    lia. }
  intros H1 H2. split; [|intros; apply Hmono; lia].
  intros Hlt. destruct (Z.lt_trichotomy d1 d2) as [|[->|Hgt]]; [done| |].
  - destruct (int_truediv_1_spec d2) as (m & Hm & _); [lia|].
    rewrite Hm in Hlt. apply float_lt_finite in Hlt. lia.
  - pose proof (Hmono d2 d1 ltac:(lia) Hgt ltac:(lia)) as Hgt'.
    destruct (int_truediv_1_spec d1) as (m1 & Hm1 & _); [lia|].
    destruct (int_truediv_1_spec d2) as (m2 & Hm2 & _); [lia|].
    rewrite Hm1, Hm2 in *. apply float_lt_finite in Hlt, Hgt'. lia.
Qed.




Lemma int_truediv_1_le_1 (d : Z) :
  1 ≤ d < 2 ^ 53 → float_le (int_truediv 1 d) float_1 = true.
Proof.
  intros Hd. destruct (Z.eq_dec d 1) as [->|Hne]; [done|].
  destruct (int_truediv_1_spec d Hd) as (m & -> & _).
  assert (0 < Z.log2_up d) by (apply Z.log2_up_pos; lia).
  unfold float_le, float_1, SFleb, SFcompare.
  by destruct (Z.compare_spec (- (Z.log2_up d + 52)) (-52)); try lia.
Qed.

Section Properties.
Context `{Substrate}.

(** ** The order of [sort_key] *)

Lemma sort_key_result (r : ConjectureResult) :
  sort_key (inr r) = sort_key (inl (buffer r)).
Proof. reflexivity. Qed.

Lemma tuple_lt_sort_key (b1 b2 : bytes) :
  tuple_lt (sort_key (inl b1)) (sort_key (inl b2)) = true ↔
  (length b1 < length b2)%nat ∨ (length b1 = length b2 ∧ bytes_lt b1 b2 = true).
Proof.
  unfold tuple_lt, sort_key; simpl. case_decide as Hl.
  - split; [by right|]. intros [?|[_ ?]]; [lia|done].
  - rewrite Nat.ltb_lt. split; [by left|]. intros [?|[? _]]; [done|lia].
Qed.

Lemma tuple_le_sort_key (b1 b2 : bytes) :
  tuple_le (sort_key (inl b1)) (sort_key (inl b2)) = true ↔
  b1 = b2 ∨ tuple_lt (sort_key (inl b1)) (sort_key (inl b2)) = true.
Proof.
  unfold tuple_le, tuple_lt, sort_key; simpl.
  case_decide as Hl; [case_decide as Hb|].
  - by split; [left|].
  - split; [by right|]. by intros [?|?].
  - split; [by right|]. intros [->|?]; done.
Qed.

Lemma key_lt_irrefl (b : bytes) : ¬ key_lt b b.
Proof.
  unfold key_lt. rewrite tuple_lt_sort_key, bytes_lt_irrefl.
  intros [?|[_ ?]]; [lia|done].
Qed.

Lemma key_lt_trans (a b c : bytes) : key_lt a b → key_lt b c → key_lt a c.
Proof.
  unfold key_lt. rewrite !tuple_lt_sort_key.
  intros [?|[E1 L1]] [?|[E2 L2]]; try (left; lia).
  right. split; [lia|]. by eapply bytes_lt_trans.
Qed.

Lemma key_lt_trichotomy (a b : bytes) : key_lt a b ∨ a = b ∨ key_lt b a.
Proof.
  unfold key_lt. rewrite !tuple_lt_sort_key.
  destruct (Nat.lt_trichotomy (length a) (length b)) as [?|[E|?]]; [auto| |auto].
  destruct (decide (a = b)) as [|Hne]; [auto|].
  destruct (bytes_lt_total a b E Hne); [left|right; right]; right; split; auto.
Qed.

Lemma key_ge_spec (x y : bytes) : key_ge x y ↔ x = y ∨ key_lt y x.
Proof. unfold key_ge, key_lt. rewrite tuple_le_sort_key. naive_solver. Qed.

#[global] Instance key_ge_total : Total key_ge.
Proof.
  intros x y. rewrite !key_ge_spec.
  destruct (key_lt_trichotomy x y) as [?|[?|?]]; auto.
Qed.

#[global] Instance key_ge_trans : Transitive key_ge.
Proof.
  intros x y z. rewrite !key_ge_spec.
  intros [Exy|Hxy] [Eyz|Hyz]; subst; auto. right. by eapply key_lt_trans.
Qed.

(** C5. [sort_key] orders byte buffers in shortlex order: the key of [b1] is
    below the key of [b2] exactly when [b1] is shorter, or as long and
    lexicographically before [b2]; and this order is a strict total order
    (irreflexive, transitive, any two distinct buffers comparable). *)
Theorem sort_key_shortlex :
  (∀ b1 b2 : bytes,
      tuple_lt (sort_key (inl b1)) (sort_key (inl b2)) = true ↔
      (length b1 < length b2)%nat ∨ (length b1 = length b2 ∧ lex_precedes b1 b2))
  ∧ (∀ b : bytes, tuple_lt (sort_key (inl b)) (sort_key (inl b)) = false)
  ∧ (∀ a b c : bytes,
      tuple_lt (sort_key (inl a)) (sort_key (inl b)) = true →
      tuple_lt (sort_key (inl b)) (sort_key (inl c)) = true →
      tuple_lt (sort_key (inl a)) (sort_key (inl c)) = true)
  ∧ (∀ a b : bytes,
      tuple_lt (sort_key (inl a)) (sort_key (inl b)) = true ∨ a = b ∨
      tuple_lt (sort_key (inl b)) (sort_key (inl a)) = true).
Proof.
  split; [|split; [|split]].
  - intros b1 b2. rewrite tuple_lt_sort_key. split.
    + intros [?|[E L]]; [by left|right]. split; [done|]. by apply bytes_lt_lex.
    + intros [?|[E L]]; [by left|right]. split; [done|]. by apply bytes_lt_lex.
  - intros b. apply not_true_is_false, key_lt_irrefl.
  - apply key_lt_trans.
  - apply key_lt_trichotomy.
Qed.

(** ** Containers *)

Lemma symmetric_difference_self (X : gset Arc) : symmetric_difference X X = ∅.
Proof. unfold symmetric_difference. set_solver. Qed.

Lemma Counter_update_dom (elems : gset Arc) (c : gmap Arc nat) :
  dom (Counter_update elems c) = dom c ∪ elems.
Proof.
  unfold Counter_update.
  apply (set_fold_ind_L (λ m X, dom m = dom c ∪ X)).
  - set_solver.
  - intros x X r Hx IH. rewrite dom_insert_L, IH. set_solver.
Qed.

Lemma union_difference_dom (X Y : gset Arc) : X ∪ Y = X ∪ Y ∖ X.
Proof.
  apply set_eq. intros x. rewrite !elem_of_union, elem_of_difference.
  destruct (decide (x ∈ X)); naive_solver.
Qed.

Lemma SortedKeyList_add_Permutation (r : ConjectureResult) (l : list ConjectureResult) :
  SortedKeyList_add r l ≡ₚ r :: l.
Proof.
  induction l as [|x l IH]; simpl; [done|].
  destruct (tuple_lt _ _); [done|]. rewrite IH. apply Permutation_swap.
Qed.

Lemma fetch_save (k k' v : bytes) (db : ExampleDatabase) :
  ExampleDatabase_fetch k' (ExampleDatabase_save k v db) =
  if decide (k = k') then {[v]} ∪ ExampleDatabase_fetch k' db
  else ExampleDatabase_fetch k' db.
Proof.
  unfold ExampleDatabase_fetch, ExampleDatabase_save. rewrite lookup_insert.
  case_decide; by subst.
Qed.

Lemma keys_ok_distinct (st : FuzzProcess) :
  keys_ok st → _fuzz_database_key st ≠ _hy_database_key st.
Proof.
  unfold keys_ok. intros -> E. apply (f_equal length) in E.
  rewrite length_app in E. simpl in E. lia.
Qed.

Lemma list_pop_snoc {A} (l : list A) (x : A) : list_pop (l ++ [x]) = Some (x, l).
Proof. unfold list_pop. by rewrite last_snoc, removelast_last. Qed.

Lemma list_pop_nil {A} : list_pop (@nil A) = None.
Proof. reflexivity. Qed.

(** ** [_update], attribute by attribute *)

Ltac mrun :=
  cbv beta iota delta
    [mbind M_bind mret M_ret get modify raise when assert_ database_save
     _report_change _json_description estimated_value_of_next_run].

Lemma _update_spec (st : FuzzProcess) (db : ExampleDatabase) (result : ConjectureResult) :
  _database st = Some db → status result ≠ OVERRUN → counters_ok st →
  let arcs :=
    symmetric_difference (minimal_example_arcs st) (extra_information_arcs result) in
  let db1 := if decide (novelty st result = ∅) then db
             else ExampleDatabase_save (_fuzz_database_key st) (buffer result) db in
  let sd := setdefault (interesting_origin result) (buffer result)
              (_interesting_examples st) in
  ∃ st', _update result st = (Ok tt, st') ∧
    pool st' = (if decide (novelty st result = ∅) then pool st
                else SortedKeyList_add result (pool st)) ∧
    last_new_cov_at st' = (if decide (novelty st result = ∅) then last_new_cov_at st
                           else ninputs st) ∧
    seen_arcs st' = Counter_update arcs (seen_arcs st) ∧
    _interesting_examples st' =
      (if decide (status result = INTERESTING) then sd.2
       else _interesting_examples st) ∧
    _database st' =
      Some (if decide (status result = INTERESTING) then
              if tuple_le (sort_key (inr result)) (sort_key (inl sd.1))
              then ExampleDatabase_save (_hy_database_key st) (buffer result) db1
              else db1
            else db1) ∧
    ninputs st' = ninputs st ∧
    minimal_example_arcs st' = minimal_example_arcs st ∧
    _hy_database_key st' = _hy_database_key st ∧
    _fuzz_database_key st' = _fuzz_database_key st ∧
    _replay_buffer st' = _replay_buffer st.
Proof.
  intros Hdb Hst Hc arcs db1 sd. unfold _update. rewrite decide_False by done.
  subst arcs db1 sd. unfold novelty, counters_ok in *.
  destruct st; simpl in *; subst.
  mrun. simpl.
  case_bool_decide as Hn; simpl.
  all: case_bool_decide as Hi; simpl.
  all: try (destruct (setdefault _ _ _) as [x d] eqn:Hsd; simpl;
            rewrite ?bool_decide_eq_true_2 by eauto; simpl;
            destruct (tuple_le _ _) eqn:Hle; simpl).
  all: try (destruct (_ || _) eqn:Hrep; simpl).
  all: try (destruct (_ - _ =? 0) eqn:Hz; [apply Z.eqb_eq in Hz; lia|]; simpl).
  all: eexists; split; [reflexivity|]; simpl; repeat split; repeat case_decide; try done.
  all: try (rewrite Hsd; simpl); try rewrite Hle; try done.
Qed.

(** Without a database handle a novel result stops [_update] at the first
    [save], before anything is changed. *)
Lemma _update_no_database (st : FuzzProcess) (result : ConjectureResult) :
  _database st = None → status result ≠ OVERRUN → novelty st result ≠ ∅ →
  _update result st = (Raise AttributeError, st).
Proof.
  intros Hdb Hst Hn. unfold _update. rewrite decide_False by done.
  unfold novelty in *. destruct st; simpl in *; subst.
  mrun. simpl. by rewrite bool_decide_eq_true_2.
Qed.

(** Without a database handle a result that brings nothing new is
    processed to the end. *)
Lemma _update_no_database_quiet (st : FuzzProcess) (result : ConjectureResult) :
  _database st = None → status result ≠ OVERRUN → novelty st result = ∅ →
  counters_ok st →
  ∃ st', _update result st = (Ok tt, st') ∧
    pool st' = pool st ∧
    seen_arcs st' =
      Counter_update
        (symmetric_difference (minimal_example_arcs st) (extra_information_arcs result))
        (seen_arcs st).
Proof.
  intros Hdb Hst Hn Hc. unfold _update. rewrite decide_False by done.
  unfold novelty, counters_ok in *. destruct st; simpl in *; subst.
  mrun. simpl. rewrite bool_decide_eq_false_2 by (by intros ?). simpl.
  case_bool_decide as Hi; simpl.
  all: try (destruct (setdefault _ _ _) as [x d] eqn:Hsd; simpl;
            rewrite ?bool_decide_eq_false_2 by (by intros [??]); simpl).
  all: destruct (_ || _) eqn:Hrep; simpl.
  all: try (destruct (_ - _ =? 0) eqn:Hz; [apply Z.eqb_eq in Hz; lia|]; simpl).
  all: by eexists.
Qed.

Lemma _update_ninputs (st : FuzzProcess) (result : ConjectureResult) :
  ninputs (_update result st).2 = ninputs st.
Proof.
  unfold _update. case_decide; [done|].
  destruct st as [? ? ? ? ? odb ? ? ? ? ? ? ?]; simpl.
  mrun. simpl.
  case_bool_decide; simpl; destruct odb; simpl; try done.
  all: case_bool_decide; simpl.
  all: try (destruct (setdefault _ _ _) as [x d]; simpl;
            rewrite ?bool_decide_eq_true_2 by eauto;
            rewrite ?bool_decide_eq_false_2 by (by intros [??]); simpl;
            try destruct (tuple_le _ _); simpl).
  all: try (destruct (_ || _); simpl).
  all: try (destruct (_ - _ =? 0); simpl); done.
Qed.

Lemma tuple_le_refl (r : ConjectureResult) :
  tuple_le (sort_key (inr r)) (sort_key (inl (buffer r))) = true.
Proof. rewrite sort_key_result. apply tuple_le_sort_key. by left. Qed.

Lemma status_better_than_OVERRUN (result : ConjectureResult) :
  Status_value OVERRUN < Status_value (status result) ↔ status result ≠ OVERRUN.
Proof. destruct (status result); simpl; split; (done || lia). Qed.

Lemma elem_of_novelty (st : FuzzProcess) (result : ConjectureResult) (a : Arc) :
  a ∈ novelty st result ↔
  ((a ∈ minimal_example_arcs st ∧ a ∉ extra_information_arcs result) ∨
   (a ∈ extra_information_arcs result ∧ a ∉ minimal_example_arcs st)) ∧
  a ∉ dom (seen_arcs st).
Proof. unfold novelty, symmetric_difference. set_solver. Qed.

(** ** Coverage novelty and pool admission *)

(** For a result with status better than OVERRUN, on a target that
    has a database handle (or for a result whose novelty set is empty):
    the novelty set consists of the arcs that are in exactly one of the
    baseline arcs and the result's arcs and are not yet seen; [_update]
    returns normally; the result is added to the pool if the novelty set
    is non-empty and the pool is unchanged otherwise; and the set of seen
    arcs afterwards is the previous one united with the novelty set. *)
Theorem update_novelty_admission (st : FuzzProcess) (result : ConjectureResult) :
  Status_value OVERRUN < Status_value (status result) →
  is_Some (_database st) ∨ novelty st result = ∅ →
  counters_ok st →
  (∀ a, a ∈ novelty st result ↔
        ((a ∈ minimal_example_arcs st ∧ a ∉ extra_information_arcs result) ∨
         (a ∈ extra_information_arcs result ∧ a ∉ minimal_example_arcs st)) ∧
        a ∉ dom (seen_arcs st)) ∧
  ∃ st', _update result st = (Ok tt, st') ∧
    (novelty st result ≠ ∅ →
       pool st' = SortedKeyList_add result (pool st) ∧
       result ∈ pool st' ∧ length (pool st') = S (length (pool st))) ∧
    (novelty st result = ∅ → pool st' = pool st) ∧
    dom (seen_arcs st') = dom (seen_arcs st) ∪ novelty st result.
Proof.
  intros Hst%status_better_than_OVERRUN Hdb Hc.
  split; [apply elem_of_novelty|].
  assert (∃ st', _update result st = (Ok tt, st') ∧
            pool st' = (if decide (novelty st result = ∅) then pool st
                        else SortedKeyList_add result (pool st)) ∧
            seen_arcs st' =
              Counter_update
                (symmetric_difference (minimal_example_arcs st)
                   (extra_information_arcs result))
                (seen_arcs st)) as (st' & Hrun & Hpool & Hseen).
  { destruct (_database st) as [db|] eqn:E.
    - destruct (_update_spec st db result E Hst Hc)
        as (st' & Hrun & Hpool & _ & Hseen & _). by exists st'.
    - destruct Hdb as [[db [=]]|Hn].
      destruct (_update_no_database_quiet st result E Hst Hn Hc)
        as (st' & Hrun & Hpool & Hseen).
      exists st'. by rewrite decide_True. }
  exists st'. split; [done|]. split; [|split].
  - intros Hn. rewrite decide_False in Hpool by done. rewrite Hpool.
    split; [done|]. split.
    + rewrite SortedKeyList_add_Permutation. by left.
    + by rewrite SortedKeyList_add_Permutation.
  - intros Hn. by rewrite decide_True in Hpool.
  - rewrite Hseen, Counter_update_dom. unfold novelty. apply union_difference_dom.
Qed.

(** ** Failing examples *)

(** An origin that has an entry keeps the buffer stored for it: [_update]
    goes through [setdefault] and never assigns to an existing key. *)
Lemma _update_keeps_entry (st : FuzzProcess) (db : ExampleDatabase)
    (result : ConjectureResult) (o : option Origin) (x : bytes) :
  _database st = Some db → status result ≠ OVERRUN → counters_ok st →
  _interesting_examples st !! o = Some x →
  ∃ st', _update result st = (Ok tt, st') ∧ _interesting_examples st' !! o = Some x.
Proof.
  intros Hdb Hst Hc Hx.
  destruct (_update_spec st db result Hdb Hst Hc)
    as (st' & Hrun & _ & _ & _ & Hmap & _).
  exists st'. split; [done|]. rewrite Hmap. case_decide; [|done].
  unfold setdefault.
  destruct (_interesting_examples st !! interesting_origin result) eqn:E; simpl; [done|].
  rewrite lookup_insert_ne; [done|]. congruence.
Qed.

(** C10. On a target with a database, the first INTERESTING result of an
    origin (no entry for the origin yet) is saved under the primary key,
    whatever its size, and its buffer becomes the entry of the origin. *)
Theorem first_failure_saved (st : FuzzProcess) (db : ExampleDatabase)
    (result : ConjectureResult) :
  _database st = Some db →
  counters_ok st →
  status result = INTERESTING →
  _interesting_examples st !! interesting_origin result = None →
  ∃ st' db', _update result st = (Ok tt, st') ∧
    _database st' = Some db' ∧
    buffer result ∈ ExampleDatabase_fetch (_hy_database_key st) db' ∧
    _interesting_examples st' !! interesting_origin result = Some (buffer result).
Proof.
  intros Hdb Hc Hi Hnone.
  assert (status result ≠ OVERRUN) as Hst by (rewrite Hi; done).
  destruct (_update_spec st db result Hdb Hst Hc)
    as (st' & Hrun & _ & _ & _ & Hmap & Hdb' & _).
  rewrite decide_True in Hmap by done. rewrite decide_True in Hdb' by done.
  unfold setdefault in Hmap, Hdb'. rewrite Hnone in Hmap, Hdb'. simpl in Hmap, Hdb'.
  rewrite tuple_le_refl in Hdb'.
  eexists st', _. split; [done|]. split; [done|]. split.
  - rewrite fetch_save, decide_True by done. set_solver.
  - rewrite Hmap. apply lookup_insert_eq.
Qed.

(** What one INTERESTING result does to the entry of its origin and to
    the buffers stored under the primary key. *)
Lemma _update_interesting (st : FuzzProcess) (db : ExampleDatabase)
    (result : ConjectureResult) :
  _database st = Some db → counters_ok st → keys_ok st →
  status result = INTERESTING →
  let x := default (buffer result)
             (_interesting_examples st !! interesting_origin result) in
  ∃ st' db', _update result st = (Ok tt, st') ∧
    _database st' = Some db' ∧ counters_ok st' ∧ keys_ok st' ∧
    _hy_database_key st' = _hy_database_key st ∧
    _interesting_examples st' !! interesting_origin result = Some x ∧
    ExampleDatabase_fetch (_hy_database_key st) db' =
      (if tuple_le (sort_key (inr result)) (sort_key (inl x))
       then {[buffer result]} ∪ ExampleDatabase_fetch (_hy_database_key st) db
       else ExampleDatabase_fetch (_hy_database_key st) db).
Proof.
  intros Hdb Hc Hk Hi x.
  assert (status result ≠ OVERRUN) as Hst by (rewrite Hi; done).
  pose proof (keys_ok_distinct st Hk) as Hne.
  destruct (_update_spec st db result Hdb Hst Hc)
    as (st' & Hrun & _ & Hl & _ & Hmap & Hdb' & Hn & _ & Hhy & Hfz & _).
  rewrite decide_True in Hmap by done. rewrite decide_True in Hdb' by done.
  assert (setdefault (interesting_origin result) (buffer result)
            (_interesting_examples st) =
          (x, <[interesting_origin result := x]> (_interesting_examples st))) as Hsd.
  { unfold setdefault, x.
    destruct (_interesting_examples st !! _) eqn:E; simpl; [|done].
    by rewrite insert_id. }
  rewrite Hsd in Hmap, Hdb'. simpl in Hmap, Hdb'.
  eexists st', _. split; [done|]. split; [done|]. split; [|split; [|split; [|split]]].
  - unfold counters_ok in *. rewrite Hl, Hn. case_decide; lia.
  - unfold keys_ok in *. by rewrite Hhy, Hfz.
  - done.
  - rewrite Hmap. apply lookup_insert_eq.
  - destruct (tuple_le _ _); case_decide;
      rewrite ?fetch_save, ?decide_True, ?decide_False by done;
      rewrite ?fetch_save, ?decide_True, ?decide_False by done; done.
Qed.

(** C2, as the code has it.  On a target with a database, an INTERESTING
    result is saved under the primary key exactly when its buffer is [<=]
    by [sort_key] the buffer that the interesting-examples map holds for
    its origin once [setdefault] has run (its own buffer when the origin is
    new); so of two results of one new origin, the second with the shorter
    buffer, both buffers are saved under the primary key. *)
Theorem primary_key_dedup (st : FuzzProcess) (db : ExampleDatabase)
    (r1 r2 : ConjectureResult) :
  _database st = Some db →
  counters_ok st →
  keys_ok st →
  status r1 = INTERESTING →
  status r2 = INTERESTING →
  interesting_origin r2 = interesting_origin r1 →
  ∃ st1 st2 db1 db2 x1 x2,
    _update r1 st = (Ok tt, st1) ∧ _update r2 st1 = (Ok tt, st2) ∧
    _database st1 = Some db1 ∧ _database st2 = Some db2 ∧
    _interesting_examples st1 !! interesting_origin r1 = Some x1 ∧
    _interesting_examples st2 !! interesting_origin r1 = Some x2 ∧
    ExampleDatabase_fetch (_hy_database_key st) db1 =
      (if tuple_le (sort_key (inr r1)) (sort_key (inl x1))
       then {[buffer r1]} ∪ ExampleDatabase_fetch (_hy_database_key st) db
       else ExampleDatabase_fetch (_hy_database_key st) db) ∧
    ExampleDatabase_fetch (_hy_database_key st) db2 =
      (if tuple_le (sort_key (inr r2)) (sort_key (inl x2))
       then {[buffer r2]} ∪ ExampleDatabase_fetch (_hy_database_key st) db1
       else ExampleDatabase_fetch (_hy_database_key st) db1) ∧
    (_interesting_examples st !! interesting_origin r1 = None →
     (length (buffer r2) < length (buffer r1))%nat →
     buffer r1 ∈ ExampleDatabase_fetch (_hy_database_key st) db2 ∧
     buffer r2 ∈ ExampleDatabase_fetch (_hy_database_key st) db2).
Proof.
  intros Hdb Hc Hk Hi1 Hi2 Ho.
  destruct (_update_interesting st db r1 Hdb Hc Hk Hi1)
    as (st1 & db1 & Hrun1 & Hdb1 & Hc1 & Hk1 & Hhy1 & Hx1 & Hf1).
  destruct (_update_interesting st1 db1 r2 Hdb1 Hc1 Hk1 Hi2)
    as (st2 & db2 & Hrun2 & Hdb2 & _ & _ & _ & Hx2 & Hf2).
  rewrite Hhy1, Ho in *. rewrite Hx1 in Hx2, Hf2. simpl in Hx2, Hf2.
  eexists st1, st2, db1, db2, _, _.
  do 8 (split; [done|]).
  intros Hnone Hlen. rewrite Hf2, Hf1. rewrite Hnone. simpl.
  rewrite tuple_le_refl.
  assert (tuple_le (sort_key (inr r2)) (sort_key (inl (buffer r1))) = true) as ->.
  { rewrite sort_key_result. apply tuple_le_sort_key. right.
    apply tuple_lt_sort_key. by left. }
  set_solver.
Qed.

(** ** What running the input leaves alone *)

Lemma same_data_refl (s : FuzzProcess) : same_data s s.
Proof. by repeat split. Qed.

Lemma same_data_trans (s1 s2 s3 : FuzzProcess) :
  same_data s1 s2 → same_data s2 s3 → same_data s1 s3.
Proof. unfold same_data. intros Ha Hb. destruct_and!. repeat split; congruence. Qed.

Lemma keeps_ret {A} (a : A) : keeps_data (mret a).
Proof. intros s. apply same_data_refl. Qed.

Lemma keeps_raise {A} (e : exn) : keeps_data (@raise _ _ A e).
Proof. intros s. apply same_data_refl. Qed.

Lemma keeps_get : keeps_data get.
Proof. intros s. apply same_data_refl. Qed.

Lemma keeps_bind {A B} (m : M A) (k : A → M B) :
  keeps_data m → (∀ a, keeps_data (k a)) → keeps_data (m ≫= k).
Proof.
  intros Hm Hk s. unfold mbind, M_bind. specialize (Hm s).
  destruct (m s) as [[a|e] s1]; simpl in *; [|done].
  eapply same_data_trans; [done|]. apply Hk.
Qed.

Lemma keeps_modify (f : FuzzProcess → FuzzProcess) :
  (∀ s, same_data s (f s)) → keeps_data (modify f).
Proof. intros Hf s. apply Hf. Qed.

Lemma keeps_random_random : keeps_data random_random.
Proof.
  intros s. unfold random_random. destruct (Random_random _). by repeat split.
Qed.

Lemma keeps_random_randint (a b : Z) : keeps_data (random_randint a b).
Proof.
  intros s. unfold random_randint. destruct (Random_randint _ _ _). by repeat split.
Qed.

Lemma keeps_fuzz_generator_send (value : option bytes) :
  keeps_data (fuzz_generator_send value).
Proof.
  intros s. unfold fuzz_generator_send. destruct (Generator_send _ _). by repeat split.
Qed.

Lemma keeps_random_choices {A} (population : list A) (k : nat) :
  keeps_data (random_choices population k).
Proof.
  induction k as [|k IH]; simpl; [apply keeps_ret|].
  apply keeps_bind; [apply keeps_random_random|]. intros x.
  destruct (population !! _); [|apply keeps_raise].
  apply keeps_bind; [done|]. intros cs. apply keeps_ret.
Qed.

Lemma keeps__gen_bytes (n : Z) : keeps_data (_gen_bytes n).
Proof.
  unfold _gen_bytes. induction (Z.to_nat n) as [|k IH]; simpl; [apply keeps_ret|].
  apply keeps_bind; [apply keeps_random_randint|]. intros v.
  destruct (if (0 <=? v) && (v <? 256) then Byte.of_N (Z.to_N v) else None);
    [|apply keeps_raise].
  apply keeps_bind; [done|]. intros bs. apply keeps_ret.
Qed.

Lemma keeps_generate_prefix : keeps_data generate_prefix.
Proof.
  unfold generate_prefix. apply keeps_bind; [apply keeps_get|]. intros self.
  destruct (list_pop _) as [[b rest]|].
  - apply keeps_bind; [|intros; apply keeps_ret].
    apply keeps_modify. intros s. by repeat split.
  - apply keeps_bind.
    + destruct (_ <? _); [apply keeps_ret|].
      apply keeps_bind; [apply keeps_random_random|]. intros; apply keeps_ret.
    + intros [|]; [apply keeps_ret|].
      apply keeps_bind; [apply keeps_random_choices|].
      intros [|prefix [|postfix [|? ?]]]; try apply keeps_raise.
      repeat (apply keeps_bind;
              [first [apply keeps_random_randint | apply keeps__gen_bytes]|intros ?]).
      apply keeps_ret.
Qed.

Lemma keeps_run_input : keeps_data run_input.
Proof.
  unfold run_input.
  apply keeps_bind; [apply keeps_fuzz_generator_send|]. intros _.
  apply keeps_bind; [apply keeps_generate_prefix|]. intros prefix.
  apply keeps_fuzz_generator_send.
Qed.

Lemma run_one_unfold (st : FuzzProcess) :
  pool st ≠ [] →
  run_one st =
  match run_input (set_ninputs (ninputs st + 1) st) with
  | (Ok (Result result), s2) =>
      if Status_value OVERRUN <? Status_value (status result)
      then _update result s2 else (Ok tt, s2)
  | (Ok Overrun, s2) => (Ok tt, s2)
  | (Raise e, s2) => (Raise e, s2)
  end.
Proof.
  intros Hp. unfold run_one. mrun. rewrite bool_decide_eq_true_2 by done.
  simpl. destruct (run_input _) as [[[|result]|e] s2]; [done| |done].
  simpl. by destruct (_ <? _).
Qed.

(** ** The trial counter and discarded results *)

Lemma run_one_ninputs (st : FuzzProcess) :
  pool st ≠ [] → ninputs (run_one st).2 = ninputs st + 1.
Proof.
  intros Hp. rewrite (run_one_unfold st Hp).
  pose proof (keeps_run_input (set_ninputs (ninputs st + 1) st)) as Hk.
  destruct (run_input _) as [[[|result]|e] s2]; simpl in Hk; [apply Hk| |apply Hk].
  destruct (_ <? _); [rewrite _update_ninputs|]; simpl; apply Hk.
Qed.

(** C9. A call of [run_one] on a started target (non-empty pool) leaves
    the trial counter one higher, whatever happens to the result and even
    when the call raises; and when the result of the trial is OVERRUN the
    call returns normally with the pool, the seen arcs, the
    interesting-examples map, the last-new-coverage index and the database
    as they were. *)
Theorem run_one_counts_every_trial (st : FuzzProcess) :
  pool st ≠ [] →
  ninputs (run_one st).2 = ninputs st + 1 ∧
  ∀ result s2,
    run_input (set_ninputs (ninputs st + 1) st) = (Ok result, s2) →
    Yielded_status result = OVERRUN →
    run_one st = (Ok tt, s2) ∧
    pool s2 = pool st ∧
    seen_arcs s2 = seen_arcs st ∧
    _interesting_examples s2 = _interesting_examples st ∧
    last_new_cov_at s2 = last_new_cov_at st ∧
    _database s2 = _database st ∧
    minimal_example_arcs s2 = minimal_example_arcs st.
Proof.
  intros Hp. split; [by apply run_one_ninputs|].
  intros result s2 Hrun Ho. rewrite (run_one_unfold st Hp), Hrun.
  assert ((match result with
           | Result r =>
               if Status_value OVERRUN <? Status_value (status r)
               then _update r s2 else (Ok tt, s2)
           | Overrun => (Ok tt, s2)
           end) = (Ok tt, s2)) as ->.
  { destruct result as [|r]; [done|]. simpl in Ho. by rewrite Ho. }
  pose proof (keeps_run_input (set_ninputs (ninputs st + 1) st)) as Hk.
  rewrite Hrun in Hk. unfold same_data in Hk. simpl in Hk.
  destruct_and!. by repeat split.
Qed.

(** C7, as the code has it.  A call of [run_one] on a started target with a
    database whose result is INVALID returns normally with the trial
    counter one higher and the interesting-examples map and the buffers
    under the primary key unchanged; the result goes through the coverage
    update of every result better than OVERRUN: with an empty novelty set
    the pool, the set of seen arcs and the database stay as they were,
    otherwise the result is added to the pool, its buffer is saved under
    the fuzz key and the novel arcs join the seen arcs. *)
Theorem run_one_invalid_result (st : FuzzProcess) (db : ExampleDatabase)
    (result : ConjectureResult) (s2 : FuzzProcess) :
  pool st ≠ [] →
  counters_ok st →
  keys_ok st →
  _database st = Some db →
  run_input (set_ninputs (ninputs st + 1) st) = (Ok (Result result), s2) →
  status result = INVALID →
  ∃ st' db', run_one st = (Ok tt, st') ∧
    _database st' = Some db' ∧
    ninputs st' = ninputs st + 1 ∧
    _interesting_examples st' = _interesting_examples st ∧
    ExampleDatabase_fetch (_hy_database_key st) db' =
      ExampleDatabase_fetch (_hy_database_key st) db ∧
    pool st' = (if decide (novelty st result = ∅) then pool st
                else SortedKeyList_add result (pool st)) ∧
    dom (seen_arcs st') = dom (seen_arcs st) ∪ novelty st result ∧
    db' = (if decide (novelty st result = ∅) then db
           else ExampleDatabase_save (_fuzz_database_key st) (buffer result) db).
Proof.
  intros Hp Hc Hk Hdb Hrun Hi.
  pose proof (keeps_run_input (set_ninputs (ninputs st + 1) st)) as Hs.
  rewrite (run_one_unfold st Hp), Hrun in *. rewrite Hi. simpl in *.
  destruct Hs as (_ & Hhy & Hfz & Hdb2 & Hmap2 & Hseen2 & Hmin2 & Hn2 & Hl2 & Hp2).
  simpl in *.
  assert (status result ≠ OVERRUN) as Hst by (rewrite Hi; done).
  assert (counters_ok s2) as Hc2.
  { unfold counters_ok in *. rewrite Hl2, Hn2. lia. }
  rewrite Hdb in Hdb2.
  destruct (_update_spec s2 db result Hdb2 Hst Hc2)
    as (st' & Hrun' & Hpool & _ & Hseen & Hmap & Hdb' & Hn & _).
  assert (novelty s2 result = novelty st result) as Hnov.
  { unfold novelty. by rewrite Hmin2, Hseen2. }
  rewrite decide_False in Hmap by (rewrite Hi; done).
  rewrite decide_False in Hdb' by (rewrite Hi; done).
  rewrite Hnov, ?Hfz, ?Hp2 in *.
  eexists st', _. split; [done|]. split; [done|].
  split; [congruence|]. split; [congruence|]. split; [|split; [done|split; [|done]]].
  - case_decide; [done|]. rewrite fetch_save, decide_False; [done|].
    by apply keys_ok_distinct.
  - rewrite Hseen, Counter_update_dom, Hseen2, Hmin2. unfold novelty.
    apply union_difference_dom.
Qed.

(** ** The value estimate *)

Lemma estimated_value_ok (st : FuzzProcess) :
  counters_ok st →
  estimated_value_of_next_run st =
  (Ok (int_truediv 1 (1 + ninputs st - last_new_cov_at st)), st).
Proof.
  unfold counters_ok, estimated_value_of_next_run. intros Hc. mrun.
  destruct (1 + ninputs st - last_new_cov_at st =? 0) eqn:E; [|done].
  apply Z.eqb_eq in E. lia.
Qed.


(** ** Startup and the replay queue *)

Lemma Generator_send_None (g : Generator) :
  ∃ r g', Generator_send None g = (Ok r, g') ∧ gen_started g' = true.
Proof.
  unfold Generator_send.
  destruct (gen_started g); destruct (run_test _ _) as [r ts]; by eexists _, _.
Qed.

Lemma Generator_send_started (v : bytes) (g : Generator) :
  gen_started g = true →
  ∃ r g', Generator_send (Some v) g = (Ok r, g') ∧ gen_started g' = true.
Proof.
  unfold Generator_send. intros ->.
  destruct (run_test _ _) as [r ts]; by eexists _, _.
Qed.

Lemma elem_of_sorted_reverse (s : gset bytes) (b : bytes) :
  b ∈ sorted_reverse s ↔ b ∈ s.
Proof. unfold sorted_reverse. by rewrite merge_sort_Permutation, elem_of_elements. Qed.

Lemma sorted_reverse_sorted (s : gset bytes) : StronglySorted key_ge (sorted_reverse s).
Proof. apply StronglySorted_merge_sort; apply _. Qed.

Lemma sorted_reverse_NoDup (s : gset bytes) : NoDup (sorted_reverse s).
Proof. unfold sorted_reverse. rewrite merge_sort_Permutation. apply NoDup_elements. Qed.

(** The buffers of a set have pairwise different keys, so the descending
    list is the only one that [sorted] can return. *)
Lemma sorted_reverse_unique (s : gset bytes) (l : list bytes) :
  l ≡ₚ elements s → StronglySorted key_ge l → l = sorted_reverse s.
Proof.
  intros Hperm Hsorted.
  assert (AntiSymm (=) key_ge) as Hanti.
  { intros x y. rewrite !key_ge_spec. intros [->|Hxy] [Eyx|Hyx]; try done.
    destruct (key_lt_irrefl x). by eapply key_lt_trans. }
  eapply (StronglySorted_unique key_ge); [done|apply sorted_reverse_sorted|].
  unfold sorted_reverse. by rewrite merge_sort_Permutation.
Qed.

Lemma reverse_descending_ascending (q : list bytes) :
  StronglySorted key_ge q → NoDup q → StronglySorted key_lt (reverse q).
Proof.
  induction 1 as [|x l Hl IH Hx]; [constructor|].
  rewrite NoDup_cons, reverse_cons. intros [Hnotin Hnd].
  apply StronglySorted_app_2; [|by apply IH|repeat constructor].
  intros x1 x2 Hx1 ->%list_elem_of_singleton.
  rewrite elem_of_reverse in Hx1. rewrite Forall_forall in Hx.
  pose proof (Hx _ Hx1) as Hge. apply key_ge_spec in Hge.
  destruct Hge as [E|?]; [|done]. subst. by destruct Hnotin.
Qed.

Lemma generate_prefix_replay (st : FuzzProcess) (q : list bytes) (b : bytes) :
  _replay_buffer st = q ++ [b] →
  generate_prefix st = (Ok b, set_replay_buffer q st).
Proof.
  intros Hq. unfold generate_prefix. mrun. by rewrite Hq, list_pop_snoc.
Qed.

Lemma drain_replay (q : list bytes) (st : FuzzProcess) :
  _replay_buffer st = q →
  drain (length q) st = (Ok (reverse q), set_replay_buffer [] st).
Proof.
  revert st. induction q as [|b q IH] using rev_ind; intros st Hq.
  - simpl. unfold mret, M_ret. f_equal. destruct st; simpl in *; by subst.
  - rewrite length_app, Nat.add_comm. simpl.
    unfold mbind, M_bind. rewrite (generate_prefix_replay st q b Hq).
    rewrite (IH (set_replay_buffer q st)) by done.
    unfold mret, M_ret. by rewrite reverse_snoc.
Qed.

(** [startup] on a target that has not been started, by what the
    baseline execution yields. *)
Lemma startup_unfold (st : FuzzProcess) :
  pool st = [] → counters_ok st →
  ∃ g1 g2 y, baseline st = Ok y ∧
    let s3 := set_fuzz_generator g2
                (set_ninputs (ninputs st + 1) (set_fuzz_generator g1 st)) in
    startup st =
    match y with
    | Overrun => (Raise AttributeError, s3)
    | Result first =>
        match _update first
                (set_pool (SortedKeyList_add first [])
                   (set_minimal_example_arcs (extra_information_arcs first) s3)) with
        | (Ok _, s6) =>
            (Ok tt,
             match _database s6 with
             | Some db =>
                 set_replay_buffer
                   (sorted_reverse
                      (ExampleDatabase_fetch (_hy_database_key s6) db
                       ∪ ExampleDatabase_fetch (_fuzz_database_key s6) db)) s6
             | None => s6
             end)
        | (Raise e, s6) => (Raise e, s6)
        end
    end.
Proof.
  intros Hp Hc. unfold counters_ok in Hc. unfold baseline.
  destruct (Generator_send_None (fuzz_generator st)) as (r0 & g1 & Hg1 & Hs1).
  destruct (Generator_send_started (replicate BUFFER_SIZE x00) g1 Hs1)
    as (y & g2 & Hg2 & Hs2).
  exists g1, g2, y. rewrite Hg1. simpl. rewrite Hg2. simpl. split; [done|].
  unfold startup. mrun. rewrite bool_decide_eq_true_2 by done. simpl.
  destruct (1 + ninputs st - last_new_cov_at st =? 0) eqn:Hz;
    [apply Z.eqb_eq in Hz; lia|].
  simpl. unfold fuzz_generator_send at 1. rewrite Hg1. simpl.
  unfold fuzz_generator_send at 1. simpl. rewrite Hg2. simpl.
  destruct y as [|first]; [done|]. simpl. rewrite Hp.
  destruct (_update first _) as [[[]|e] s6]; [|done]. by destruct (_database s6).
Qed.

(** A [startup] that returns has had a baseline result. *)
Lemma startup_Ok_baseline (st st' : FuzzProcess) :
  pool st = [] → counters_ok st → startup st = (Ok tt, st') →
  ∃ first, baseline st = Ok (Result first).
Proof.
  intros Hp Hc Hrun.
  destruct (startup_unfold st Hp Hc) as (g1 & g2 & [|first] & Hb & Hs).
  - simpl in Hs. congruence.
  - by exists first.
Qed.

Lemma startup_spec (st : FuzzProcess) (db : ExampleDatabase) (first : ConjectureResult) :
  pool st = [] → counters_ok st → _database st = Some db →
  baseline st = Ok (Result first) →
  ∃ st' db', startup st = (Ok tt, st') ∧
    _database st' = Some db' ∧
    _hy_database_key st' = _hy_database_key st ∧
    _fuzz_database_key st' = _fuzz_database_key st ∧
    ninputs st' = ninputs st + 1 ∧
    last_new_cov_at st' = last_new_cov_at st ∧
    pool st' ≠ [] ∧
    _replay_buffer st' =
      sorted_reverse (ExampleDatabase_fetch (_hy_database_key st) db'
                      ∪ ExampleDatabase_fetch (_fuzz_database_key st) db').
Proof.
  intros Hp Hc Hdb Hb.
  destruct (startup_unfold st Hp Hc) as (g1 & g2 & y & Hy & Hs).
  rewrite Hb in Hy. injection Hy as <-. cbv beta iota zeta in Hs.
  unfold counters_ok in Hc.
  set (s5 := set_pool (SortedKeyList_add first [])
               (set_minimal_example_arcs (extra_information_arcs first)
                  (set_fuzz_generator g2 (set_ninputs (ninputs st + 1)
                     (set_fuzz_generator g1 st))))) in *.
  assert (∃ s6 db', _update first s5 = (Ok tt, s6) ∧ _database s6 = Some db' ∧
            _hy_database_key s6 = _hy_database_key st ∧
            _fuzz_database_key s6 = _fuzz_database_key st ∧
            ninputs s6 = ninputs st + 1 ∧
            last_new_cov_at s6 = last_new_cov_at st ∧
            pool s6 ≠ []) as (s6 & db' & Hrun & Hdb' & Hhy & Hfz & Hn & Hl & Hp6).
  { destruct (decide (status first = OVERRUN)) as [Ho|Ho].
    - exists s5, db. unfold _update. rewrite decide_True by done.
      by repeat split.
    - assert (novelty s5 first = ∅) as Hnov.
      { unfold novelty. simpl. rewrite symmetric_difference_self. set_solver. }
      destruct (_update_spec s5 db first Hdb Ho)
        as (s6 & Hrun & Hpool & Hl & _ & _ & Hdb' & Hn & _ & Hhy & Hfz & _).
      { unfold counters_ok. simpl. lia. }
      rewrite decide_True in Hpool by done. rewrite decide_True in Hl by done.
      eexists s6, _. repeat split; try done.
      rewrite Hpool. simpl. done. }
  exists (set_replay_buffer
            (sorted_reverse (ExampleDatabase_fetch (_hy_database_key st) db'
                             ∪ ExampleDatabase_fetch (_fuzz_database_key st) db')) s6), db'.
  split; [|by repeat split].
  rewrite Hs, Hrun, Hdb'. by rewrite Hhy, Hfz.
Qed.

(** C4, as the code has it.  [startup] on a fresh target with a database
    returns normally whenever the baseline execution gives a result; and
    a [startup] that has returned leaves in the replay queue exactly the
    buffers stored under the primary key and the fuzz key, without
    repetition and in descending [sort_key] order; a call of
    [generate_prefix] with a non-empty queue removes and returns its last
    entry; so draining the queue returns the buffers in ascending order,
    the smallest first. *)
Theorem startup_replay_order (st : FuzzProcess) (db : ExampleDatabase) :
  pool st = [] →
  counters_ok st →
  _database st = Some db →
  (∀ first, baseline st = Ok (Result first) → ∃ st', startup st = (Ok tt, st')) ∧
  ∀ st', startup st = (Ok tt, st') →
    ∃ db', _database st' = Some db' ∧
      (∀ b, b ∈ _replay_buffer st' ↔
            b ∈ ExampleDatabase_fetch (_hy_database_key st) db'
                ∪ ExampleDatabase_fetch (_fuzz_database_key st) db') ∧
      StronglySorted key_ge (_replay_buffer st') ∧
      NoDup (_replay_buffer st') ∧
      (∀ (s : FuzzProcess) q b,
          _replay_buffer s = q ++ [b] →
          generate_prefix s = (Ok b, set_replay_buffer q s)) ∧
      drain (length (_replay_buffer st')) st' =
        (Ok (reverse (_replay_buffer st')), set_replay_buffer [] st') ∧
      StronglySorted key_lt (reverse (_replay_buffer st')).
Proof.
  intros Hp Hc Hdb. split.
  { intros first Hb.
    destruct (startup_spec st db first Hp Hc Hdb Hb) as (st' & _ & Hrun & _).
    by exists st'. }
  intros st0 Hrun0.
  destruct (startup_Ok_baseline st st0 Hp Hc Hrun0) as (first & Hb).
  destruct (startup_spec st db first Hp Hc Hdb Hb)
    as (st' & db' & Hrun & Hdb' & _ & _ & _ & _ & _ & Hq).
  assert (st0 = st') as -> by congruence.
  exists db'. split; [done|]. rewrite Hq.
  split; [intros b; apply elem_of_sorted_reverse|].
  split; [apply sorted_reverse_sorted|].
  split; [apply sorted_reverse_NoDup|].
  split; [apply generate_prefix_replay|].
  split; [rewrite <- Hq; by apply drain_replay|].
  apply reverse_descending_ascending;
    [apply sorted_reverse_sorted|apply sorted_reverse_NoDup].
Qed.

(** ** The conditions on the counters and keys hold throughout *)

Lemma __init___invariants (qualname : string) (digest : bytes)
    (default_database : option ExampleDatabase) (seed : Z)
    (nodeid0 : option string) (key : bytes)
    (hypothesis_database : option ExampleDatabase) :
  let st := __init__ qualname digest default_database seed nodeid0 key
              hypothesis_database in
  counters_ok st ∧ keys_ok st ∧ pool st = [].
Proof. by repeat split. Qed.

Lemma _update_invariants (st : FuzzProcess) (result : ConjectureResult) :
  counters_ok st → keys_ok st →
  counters_ok (_update result st).2 ∧ keys_ok (_update result st).2.
Proof.
  unfold counters_ok, keys_ok, _update. intros Hc Hk. case_decide; [done|].
  destruct st as [? ? ? ? ? odb ? ? ? ? ? ? ?]; simpl in *.
  mrun. simpl.
  case_bool_decide; simpl; destruct odb; simpl; try done.
  all: case_bool_decide; simpl.
  all: try (destruct (setdefault _ _ _) as [x d]; simpl;
            rewrite ?bool_decide_eq_true_2 by eauto;
            rewrite ?bool_decide_eq_false_2 by (by intros [??]); simpl;
            try destruct (tuple_le _ _); simpl).
  all: try (destruct (_ || _); simpl).
  all: try (destruct (_ - _ =? 0); simpl); split; (done || lia).
Qed.

Lemma run_one_invariants (st : FuzzProcess) :
  counters_ok st → keys_ok st →
  counters_ok (run_one st).2 ∧ keys_ok (run_one st).2.
Proof.
  intros Hc Hk. destruct (decide (pool st = [])) as [Hp|Hp].
  - unfold run_one. mrun. by rewrite bool_decide_eq_false_2 by (by intros ?).
  - rewrite (run_one_unfold st Hp).
    pose proof (keeps_run_input (set_ninputs (ninputs st + 1) st)) as Hs.
    destruct (run_input _) as [[[|result]|e] s2]; simpl in *;
      destruct Hs as (_ & Hhy & Hfz & _ & _ & _ & _ & Hn & Hl & _); simpl in *.
    all: assert (counters_ok s2 ∧ keys_ok s2) as [Hc2 Hk2]
      by (unfold counters_ok, keys_ok in *; rewrite Hhy, Hfz, Hn, Hl; split; [lia|done]).
    all: try done.
    destruct (_ <? _); [by apply _update_invariants|done].
Qed.

(** Before [startup] the precondition of [run_one] fails and nothing is
    counted. *)
Lemma run_one_not_started (st : FuzzProcess) :
  pool st = [] → run_one st = (Raise AssertionError, st).
Proof.
  intros Hp. unfold run_one. mrun. by rewrite bool_decide_eq_false_2 by (by intros ?).
Qed.

(** * Further properties *)

(** ** Every path of [_update] and [run_one] *)

Lemma Counter_update_lookup (elems : gset Arc) (c : gmap Arc nat) (a : Arc) :
  Counter_update elems c !! a =
  if decide (a ∈ elems) then Some (S (default 0%nat (c !! a))) else c !! a.
Proof.
  unfold Counter_update.
  pose proof (set_fold_ind_L
    (λ (m : gmap Arc nat) (X : gset Arc), ∀ a, m !! a =
       if decide (a ∈ X) then Some (S (default 0%nat (c !! a))) else c !! a)
    (λ a acc, <[a := S (default 0%nat (acc !! a))]> acc) c) as Hfold.
  apply Hfold; clear Hfold.
  - intros a'. by rewrite decide_False by set_solver.
  - intros x X r Hx IH a'. rewrite lookup_insert.
    destruct (decide (x = a')) as [->|Hne].
    + rewrite decide_True by set_solver. by rewrite IH, decide_False.
    + rewrite IH. repeat case_decide; set_solver.
Qed.

Lemma _update_paths (st : FuzzProcess) (result : ConjectureResult) :
  let st' := (_update result st).2 in
  let arcs :=
    symmetric_difference (minimal_example_arcs st) (extra_information_arcs result) in
  let b := buffer result in
  (random st' = random st ∧ fuzz_generator st' = fuzz_generator st ∧
   nodeid st' = nodeid st ∧ _hy_database_key st' = _hy_database_key st ∧
   _fuzz_database_key st' = _fuzz_database_key st ∧
   minimal_example_arcs st' = minimal_example_arcs st ∧
   ninputs st' = ninputs st ∧ _replay_buffer st' = _replay_buffer st) ∧
  (pool st' = pool st ∧ last_new_cov_at st' = last_new_cov_at st ∨
   status result ≠ OVERRUN ∧ novelty st result ≠ ∅ ∧ is_Some (_database st) ∧
   pool st' = SortedKeyList_add result (pool st) ∧
   last_new_cov_at st' = ninputs st) ∧
  (seen_arcs st' = seen_arcs st ∨
   seen_arcs st' = Counter_update arcs (seen_arcs st)) ∧
  (_interesting_examples st' = _interesting_examples st ∨
   status result = INTERESTING ∧
   _interesting_examples st' =
     (setdefault (interesting_origin result) b (_interesting_examples st)).2) ∧
  match _database st with
  | None => _database st' = None
  | Some db =>
      ∃ db', _database st' = Some db' ∧
        (db' = db ∨
         db' = ExampleDatabase_save (_fuzz_database_key st) b db ∨
         status result = INTERESTING ∧
         (db' = ExampleDatabase_save (_hy_database_key st) b db ∨
          db' = ExampleDatabase_save (_hy_database_key st) b
                  (ExampleDatabase_save (_fuzz_database_key st) b db)))
  end.
Proof.
  unfold _update, novelty. case_decide as Ho.
  { simpl. destruct (_database st); repeat match goal with |- _ ∧ _ => split end; eauto 10. }
  destruct st as [? ? ? ? ? odb ? ? ? ? ? ? ?]; simpl.
  mrun. simpl.
  case_bool_decide as Hn; simpl; destruct odb as [db|]; simpl.
  all: try (case_bool_decide as Hi; simpl).
  all: try (destruct (setdefault _ _ _) as [x d] eqn:Hsd; simpl;
            rewrite ?bool_decide_eq_true_2 by eauto;
            rewrite ?bool_decide_eq_false_2 by (by intros [??]); simpl;
            try destruct (tuple_le _ _); simpl).
  all: try (destruct (_ || _); simpl).
  all: try (destruct (_ - _ =? 0); simpl).
  all: try rewrite Hsd; simpl.
  all: repeat match goal with |- _ ∧ _ => split end; eauto 10.
Qed.

Lemma run_one_paths (st : FuzzProcess) :
  pool st = [] ∧ (run_one st).2 = st ∨
  pool st ≠ [] ∧
  ∃ s2, same_data (set_ninputs (ninputs st + 1) st) s2 ∧
        ((run_one st).2 = s2 ∨ ∃ result, (run_one st).2 = (_update result s2).2).
Proof.
  destruct (decide (pool st = [])) as [Hp|Hp].
  - left. split; [done|]. unfold run_one. mrun.
    by rewrite bool_decide_eq_false_2 by (by intros ?).
  - right. split; [done|]. rewrite (run_one_unfold st Hp).
    pose proof (keeps_run_input (set_ninputs (ninputs st + 1) st)) as Hk.
    destruct (run_input _) as [[[|result]|e] s2]; simpl in Hk; exists s2; split; try done.
    + by left.
    + destruct (_ <? _); [right; by exists result|by left].
    + by left.
Qed.

(** ** The pool *)

Lemma tuple_le_not_lt (a b : bytes) :
  tuple_le (sort_key (inl a)) (sort_key (inl b)) =
  negb (tuple_lt (sort_key (inl b)) (sort_key (inl a))).
Proof.
  destruct (tuple_le _ _) eqn:Hle, (tuple_lt _ _) eqn:Hlt; try done.
  - apply tuple_le_sort_key in Hle as [->|Hab].
    + by destruct (key_lt_irrefl b).
    + destruct (key_lt_irrefl a). by eapply key_lt_trans.
  - destruct (key_lt_trichotomy a b) as [Hab|[->|Hba]].
    + assert (tuple_le (sort_key (inl a)) (sort_key (inl b)) = true)
        by (apply tuple_le_sort_key; by right). congruence.
    + assert (tuple_le (sort_key (inl b)) (sort_key (inl b)) = true)
        by (apply tuple_le_sort_key; by left). congruence.
    + unfold key_lt in Hba. congruence.
Qed.

Lemma key_le_result_trans (r1 r2 r3 : ConjectureResult) :
  key_le_result r1 r2 → key_le_result r2 r3 → key_le_result r1 r3.
Proof.
  unfold key_le_result. rewrite !sort_key_result, !tuple_le_sort_key.
  intros [E1|L1] [E2|L2].
  - left. congruence.
  - right. by rewrite E1.
  - right. by rewrite <- E2.
  - right. by eapply key_lt_trans.
Qed.

Lemma SortedKeyList_add_sorted (r : ConjectureResult) (l : list ConjectureResult) :
  StronglySorted key_le_result l → StronglySorted key_le_result (SortedKeyList_add r l).
Proof.
  induction 1 as [|x l Hl IH Hx]; simpl; [repeat constructor|].
  destruct (tuple_lt _ _) eqn:Hlt.
  - assert (key_le_result r x) as Hrx.
    { unfold key_le_result. rewrite !sort_key_result in *.
      apply tuple_le_sort_key. by right. }
    constructor; [by constructor|]. constructor; [done|].
    eapply Forall_impl; [done|]. intros y Hy. by eapply key_le_result_trans.
  - constructor; [done|].
    rewrite SortedKeyList_add_Permutation. constructor; [|done].
    unfold key_le_result. rewrite !sort_key_result in *.
    by rewrite tuple_le_not_lt, Hlt.
Qed.

Lemma _update_pool_sorted (st : FuzzProcess) (result : ConjectureResult) :
  pool_sorted st → pool_sorted (_update result st).2.
Proof.
  unfold pool_sorted. intros Hs.
  destruct (_update_paths st result) as (_ & [[-> _]|(_ & _ & _ & -> & _)] & _);
    [done|by apply SortedKeyList_add_sorted].
Qed.

Lemma run_one_pool_sorted (st : FuzzProcess) :
  pool_sorted st → pool_sorted (run_one st).2.
Proof.
  intros Hs. destruct (run_one_paths st) as [[_ ->]|(_ & s2 & Hk & Hrun)]; [done|].
  assert (pool_sorted s2) as Hs2.
  { unfold pool_sorted. destruct Hk as (_&_&_&_&_&_&_&_&_&->). done. }
  destruct Hrun as [->|[result ->]]; [done|by apply _update_pool_sorted].
Qed.

(** [run_one] never removes a pool entry and adds at most one. *)
Theorem run_one_pool_grows (st : FuzzProcess) :
  (∀ r, r ∈ pool st → r ∈ pool (run_one st).2) ∧
  (length (pool st) ≤ length (pool (run_one st).2) ≤ S (length (pool st)))%nat.
Proof.
  assert (∀ s result,
    (∀ r, r ∈ pool s → r ∈ pool (_update result s).2) ∧
    (length (pool s) ≤ length (pool (_update result s).2) ≤ S (length (pool s)))%nat)
    as Hupd.
  { intros s result.
    destruct (_update_paths s result) as (_ & [[-> _]|(_ & _ & _ & -> & _)] & _).
    - split; [done|lia].
    - split.
      + intros r Hr. rewrite SortedKeyList_add_Permutation. by right.
      + rewrite SortedKeyList_add_Permutation. simpl. lia. }
  destruct (run_one_paths st) as [[_ ->]|(_ & s2 & Hk & Hrun)]; [split; [done|lia]|].
  assert (pool s2 = pool st) as Hp by (destruct Hk as (_&_&_&_&_&_&_&_&_&->); done).
  destruct Hrun as [->|[result ->]].
  - rewrite Hp. split; [done|lia].
  - rewrite <- Hp. apply Hupd.
Qed.

(** ** Seen arcs *)

Lemma _update_seen_arcs_grow (st : FuzzProcess) (result : ConjectureResult)
    (a : Arc) (n : nat) :
  seen_arcs st !! a = Some n →
  ∃ m, seen_arcs (_update result st).2 !! a = Some m ∧ (n ≤ m ≤ S n)%nat.
Proof.
  intros Ha. destruct (_update_paths st result) as (_ & _ & [->| ->] & _).
  - exists n. split; [done|lia].
  - rewrite Counter_update_lookup, Ha. simpl. case_decide; eexists; split; (done || lia).
Qed.

(** An arc that has been seen stays seen: [run_one] never removes a key
    of [seen_arcs], and one call raises its hit count by at most one. *)
Theorem run_one_seen_arcs_grow (st : FuzzProcess) (a : Arc) (n : nat) :
  seen_arcs st !! a = Some n →
  ∃ m, seen_arcs (run_one st).2 !! a = Some m ∧ (n ≤ m ≤ S n)%nat.
Proof.
  intros Ha. destruct (run_one_paths st) as [[_ ->]|(_ & s2 & Hk & Hrun)].
  { exists n. split; [done|lia]. }
  assert (seen_arcs s2 !! a = Some n) as Ha2.
  { destruct Hk as (_&_&_&_&_&->&_). done. }
  destruct Hrun as [->|[result ->]].
  - exists n. split; [done|lia].
  - by apply _update_seen_arcs_grow.
Qed.

Lemma _update_returns (st : FuzzProcess) (result : ConjectureResult) :
  status result ≠ OVERRUN →
  is_Some (_database st) ∨ novelty st result = ∅ →
  counters_ok st →
  ∃ st', _update result st = (Ok tt, st') ∧
    minimal_example_arcs st' = minimal_example_arcs st ∧
    pool st' = (if decide (novelty st result = ∅) then pool st
                else SortedKeyList_add result (pool st)) ∧
    seen_arcs st' =
      Counter_update
        (symmetric_difference (minimal_example_arcs st) (extra_information_arcs result))
        (seen_arcs st).
Proof.
  intros Hst Hdb Hc. destruct (_database st) as [db|] eqn:E.
  - destruct (_update_spec st db result E Hst Hc)
      as (st' & Hrun & Hpool & _ & Hseen & _ & _ & _ & Hmin & _). by exists st'.
  - destruct Hdb as [[db [=]]|Hn].
    destruct (_update_no_database_quiet st result E Hst Hn Hc)
      as (st' & Hrun & Hpool & Hseen).
    exists st'. rewrite decide_True by done. repeat split; try done.
    destruct (_update_paths st result) as ((_&_&_&_&_&Hmin&_) & _).
    rewrite Hrun in Hmin. done.
Qed.

(** When [_update] returns for a result better than OVERRUN, every arc
    in which the result differs from the baseline has one more hit than
    before, whether it was new or not, and no other count changes. *)
Theorem update_hit_counts (st : FuzzProcess) (result : ConjectureResult) (a : Arc) :
  status result ≠ OVERRUN →
  is_Some (_database st) ∨ novelty st result = ∅ →
  counters_ok st →
  ∃ st', _update result st = (Ok tt, st') ∧
    seen_arcs st' !! a =
      if decide (a ∈ minimal_example_arcs st ↔ a ∉ extra_information_arcs result)
      then Some (S (default 0%nat (seen_arcs st !! a)))
      else seen_arcs st !! a.
Proof.
  intros Hst Hdb Hc.
  destruct (_update_returns st result Hst Hdb Hc) as (st' & Hrun & _ & _ & Hseen).
  exists st'. split; [done|]. rewrite Hseen, Counter_update_lookup.
  unfold symmetric_difference.
  destruct (decide (a ∈ minimal_example_arcs st));
    destruct (decide (a ∈ extra_information_arcs result));
    repeat case_decide; try done; set_solver.
Qed.

(** A result is novel at most once: after an [_update] that returned,
    the same result has an empty novelty set, and a second [_update] with
    it returns and leaves the pool as it is. *)
Theorem update_consumes_novelty (st : FuzzProcess) (result : ConjectureResult) :
  status result ≠ OVERRUN →
  is_Some (_database st) ∨ novelty st result = ∅ →
  counters_ok st →
  ∃ st' st'', _update result st = (Ok tt, st') ∧
    novelty st' result = ∅ ∧
    _update result st' = (Ok tt, st'') ∧
    pool st'' = pool st'.
Proof.
  intros Hst Hdb Hc.
  destruct (_update_returns st result Hst Hdb Hc) as (st' & Hrun & Hmin & _ & Hseen).
  assert (novelty st' result = ∅) as Hnov.
  { unfold novelty. rewrite Hmin, Hseen, Counter_update_dom. set_solver. }
  assert (counters_ok st') as Hc'.
  { pose proof (_update_invariants st result) as Hinv. rewrite Hrun in Hinv.
    unfold counters_ok, keys_ok in *.
    destruct (_update_paths st result) as ((_&_&_&_&_&_&Hn&_) & [[_ Hl]|(_&_&_&_&Hl)] & _);
      rewrite Hrun in *; simpl in *; lia. }
  destruct (_update_returns st' result Hst (or_intror Hnov) Hc')
    as (st'' & Hrun' & _ & Hpool & _).
  exists st', st''. rewrite decide_True in Hpool by done. done.
Qed.

(** ** Failures and the database *)

(** A failure that is recorded stays recorded with its buffer:
    [run_one] never changes or removes an entry of the
    interesting-examples map, so [has_found_failure] never goes back to
    false. *)
Theorem run_one_keeps_failures (st : FuzzProcess) :
  (∀ o x, _interesting_examples st !! o = Some x →
          _interesting_examples (run_one st).2 !! o = Some x) ∧
  (has_found_failure st = true → has_found_failure (run_one st).2 = true).
Proof.
  assert (∀ o x, _interesting_examples st !! o = Some x →
                 _interesting_examples (run_one st).2 !! o = Some x) as Hkeep.
  { intros o x Hx. destruct (run_one_paths st) as [[_ ->]|(_ & s2 & Hk & Hrun)]; [done|].
    assert (_interesting_examples s2 !! o = Some x) as Hx2.
    { destruct Hk as (_&_&_&_&->&_). done. }
    destruct Hrun as [->|[result ->]]; [done|].
    destruct (_update_paths s2 result) as (_ & _ & _ & [->|[_ ->]] & _); [done|].
    unfold setdefault.
    destruct (_interesting_examples s2 !! interesting_origin result) eqn:E; simpl; [done|].
    rewrite lookup_insert_ne; [done|]. congruence. }
  split; [done|]. unfold has_found_failure.
  intros Hf%bool_decide_eq_true. apply bool_decide_eq_true.
  destruct (map_choose _ Hf) as (o & x & Hx).
  intros Hempty. apply Hkeep in Hx. rewrite Hempty in Hx. by rewrite lookup_empty in Hx.
Qed.

Lemma _update_database_grows (st : FuzzProcess) (result : ConjectureResult) :
  (is_Some (_database (_update result st).2) ↔ is_Some (_database st)) ∧
  ∀ k b, b ∈ saved_under k st → b ∈ saved_under k (_update result st).2.
Proof.
  destruct (_update_paths st result) as (_ & _ & _ & _ & Hdb).
  unfold saved_under. destruct (_database st) as [db|].
  - destruct Hdb as (db' & -> & Hdb'). split; [split; eauto|].
    intros k b Hb.
    destruct Hdb' as [->|[->|[_ [->| ->]]]];
      rewrite ?fetch_save; repeat case_decide; set_solver.
  - rewrite Hdb. split; [done|]. set_solver.
Qed.

(** The database only grows: [run_one] never removes a saved buffer,
    under any key, and a target keeps or lacks its database handle for
    good. *)
Theorem run_one_database_grows (st : FuzzProcess) :
  (is_Some (_database (run_one st).2) ↔ is_Some (_database st)) ∧
  ∀ k b, b ∈ saved_under k st → b ∈ saved_under k (run_one st).2.
Proof.
  destruct (run_one_paths st) as [[_ ->]|(_ & s2 & Hk & Hrun)]; [done|].
  assert (_database s2 = _database st) as Hdb.
  { destruct Hk as (_&_&_&->&_). done. }
  assert (∀ k, saved_under k s2 = saved_under k st) as Hsaved.
  { intros k. unfold saved_under. by rewrite Hdb. }
  destruct Hrun as [->|[result ->]].
  - rewrite Hdb. split; [done|]. intros k b. by rewrite Hsaved.
  - destruct (_update_database_grows s2 result) as [Hsome Hgrow].
    rewrite Hsome, Hdb. split; [done|]. intros k b Hb. apply Hgrow. by rewrite Hsaved.
Qed.

(** Only failures reach the primary key: for a result that is not
    INTERESTING, [_update] leaves the buffers under the primary key and the
    interesting-examples map as they are, on every path. *)
Theorem update_primary_key_only_failures (st : FuzzProcess) (result : ConjectureResult) :
  keys_ok st →
  status result ≠ INTERESTING →
  saved_under (_hy_database_key st) (_update result st).2 =
    saved_under (_hy_database_key st) st ∧
  _interesting_examples (_update result st).2 = _interesting_examples st.
Proof.
  intros Hk%keys_ok_distinct Hi.
  destruct (_update_paths st result) as (_ & _ & _ & Hmap & Hdb).
  split.
  - unfold saved_under. destruct (_database st) as [db|]; [|by rewrite Hdb].
    destruct Hdb as (db' & -> & [->|[->|[? _]]]); [done| |done].
    by rewrite fetch_save, decide_False.
  - by destruct Hmap as [->|[? _]].
Qed.

(** ** Choosing the next input *)

Lemma bind_Ok {A B} (m : M A) (k : A → M B) (s s' : FuzzProcess) (b : B) :
  (m ≫= k) s = (Ok b, s') → ∃ a s1, m s = (Ok a, s1) ∧ k a s1 = (Ok b, s').
Proof.
  unfold mbind, M_bind. destruct (m s) as [[a|e] s1]; [|done]. by exists a, s1.
Qed.

Lemma keeps_field_bind {A B T} (f : FuzzProcess → T) (m : M A) (k : A → M B) :
  keeps_field f m → (∀ a, keeps_field f (k a)) → keeps_field f (m ≫= k).
Proof.
  unfold keeps_field. intros Hm Hk s. unfold mbind, M_bind. specialize (Hm s).
  destruct (m s) as [[a|e] s1]; simpl in *; [|done]. by rewrite Hk.
Qed.

Lemma keeps_field_ret {A T} (f : FuzzProcess → T) (a : A) : keeps_field f (mret a).
Proof. done. Qed.

Lemma keeps_field_raise {A T} (f : FuzzProcess → T) (e : exn) :
  keeps_field f (@raise _ _ A e).
Proof. done. Qed.

Lemma keeps_field_random_random {T} (f : FuzzProcess → T) :
  (∀ v s, f (set_random v s) = f s) → keeps_field f random_random.
Proof. intros Hf s. unfold random_random. destruct (Random_random _). simpl. apply Hf. Qed.

Lemma keeps_field_random_randint {T} (f : FuzzProcess → T) (a b : Z) :
  (∀ v s, f (set_random v s) = f s) → keeps_field f (random_randint a b).
Proof. intros Hf s. unfold random_randint. destruct (Random_randint _ _ _). simpl. apply Hf. Qed.

Lemma keeps_field_random_choices {A T} (f : FuzzProcess → T) (population : list A) (k : nat) :
  (∀ v s, f (set_random v s) = f s) → keeps_field f (random_choices population k).
Proof.
  intros Hf. induction k as [|k IH]; simpl; [done|].
  apply keeps_field_bind; [by apply keeps_field_random_random|]. intros x.
  destruct (population !! _); [|done].
  apply keeps_field_bind; [done|]. done.
Qed.

Lemma keeps_field__gen_bytes {T} (f : FuzzProcess → T) (n : Z) :
  (∀ v s, f (set_random v s) = f s) → keeps_field f (_gen_bytes n).
Proof.
  intros Hf. unfold _gen_bytes. induction (Z.to_nat n) as [|k IH]; simpl; [done|].
  apply keeps_field_bind; [by apply keeps_field_random_randint|]. intros v.
  destruct (if (0 <=? v) && (v <? 256) then Byte.of_N (Z.to_N v) else None); [|done].
  apply keeps_field_bind; [done|]. done.
Qed.

Lemma list_pop_Some {A} (l rest : list A) (b : A) :
  list_pop l = Some (b, rest) → l = rest ++ [b].
Proof.
  destruct l as [|x l] using rev_ind; [done|].
  rewrite list_pop_snoc. by intros [= -> ->].
Qed.

Lemma list_pop_None {A} (l : list A) : list_pop l = None → l = [].
Proof.
  destruct l as [|x l] using rev_ind; [done|]. by rewrite list_pop_snoc.
Qed.

(** With nothing to replay, choosing an input only draws from [random]. *)
Lemma generate_prefix_fresh {T} (f : FuzzProcess → T) (s : FuzzProcess) :
  (∀ v s, f (set_random v s) = f s) →
  _replay_buffer s = [] → f (generate_prefix s).2 = f s.
Proof.
  intros Hf Hq. unfold generate_prefix.
  unfold mbind at 1, M_bind at 1, get. rewrite Hq. cbn [list_pop last].
  match goal with
  | |- f (?m s).2 = f s => enough (keeps_field f m) as Hk by apply Hk
  end.
  apply keeps_field_bind.
  - destruct (_ <? _); [done|].
    apply keeps_field_bind; [by apply keeps_field_random_random|done].
  - intros [|]; [done|].
    apply keeps_field_bind; [by apply keeps_field_random_choices|].
    intros [|prefix [|postfix [|? ?]]]; try done.
    repeat (apply keeps_field_bind;
            [first [by apply keeps_field_random_randint
                   | by apply keeps_field__gen_bytes]|intros ?]).
    done.
Qed.

Lemma generate_prefix_keeps {T} (f : FuzzProcess → T) :
  (∀ v s, f (set_random v s) = f s) →
  (∀ v s, f (set_replay_buffer v s) = f s) →
  keeps_field f generate_prefix.
Proof.
  intros Hr Hq s. destruct (_replay_buffer s) as [|b q _] eqn:E using rev_ind.
  - by apply generate_prefix_fresh.
  - rewrite (generate_prefix_replay s q b E). apply Hq.
Qed.

Lemma keeps_field_fuzz_generator_send {T} (f : FuzzProcess → T) (value : option bytes) :
  (∀ v s, f (set_fuzz_generator v s) = f s) → keeps_field f (fuzz_generator_send value).
Proof.
  intros Hf s. unfold fuzz_generator_send. destruct (Generator_send _ _). simpl. apply Hf.
Qed.

Lemma generate_prefix_queue (s : FuzzProcess) :
  _replay_buffer (generate_prefix s).2 = _replay_buffer s ∨
  ∃ b, _replay_buffer s = _replay_buffer (generate_prefix s).2 ++ [b].
Proof.
  destruct (_replay_buffer s) as [|b q _] eqn:E using rev_ind.
  - left. rewrite <- E. by apply generate_prefix_fresh.
  - right. exists b. by rewrite (generate_prefix_replay s q b E).
Qed.

Lemma run_input_queue (s : FuzzProcess) :
  _replay_buffer (run_input s).2 = _replay_buffer s ∨
  ∃ b, _replay_buffer s = _replay_buffer (run_input s).2 ++ [b].
Proof.
  unfold run_input, mbind, M_bind.
  pose proof (keeps_field_fuzz_generator_send _replay_buffer None (λ _ _, eq_refl) s) as H1.
  destruct (fuzz_generator_send None s) as [[r0|e] s1]; simpl in H1; [|by left].
  rewrite <- H1. pose proof (generate_prefix_queue s1) as H2.
  destruct (generate_prefix s1) as [[p|e] s2]; simpl in H2; [|done].
  pose proof (keeps_field_fuzz_generator_send _replay_buffer (Some p) (λ _ _, eq_refl) s2) as H3.
  destruct (fuzz_generator_send (Some p) s2) as [o s3]; simpl in *. by rewrite H3.
Qed.

Lemma run_one_queue (st : FuzzProcess) :
  _replay_buffer (run_one st).2 = _replay_buffer st ∨
  ∃ b, _replay_buffer st = _replay_buffer (run_one st).2 ++ [b].
Proof.
  destruct (decide (pool st = [])) as [Hp|Hp].
  { rewrite run_one_not_started by done. by left. }
  rewrite (run_one_unfold st Hp).
  pose proof (run_input_queue (set_ninputs (ninputs st + 1) st)) as Hq.
  destruct (run_input _) as [[[|result]|e] s2]; simpl in Hq; [done| |done].
  destruct (_ <? _); [|done].
  destruct (_update_paths s2 result) as ((_&_&_&_&_&_&_&->) & _). done.
Qed.

(** ** Startup *)

Lemma Counter_update_empty (c : gmap Arc nat) : Counter_update ∅ c = c.
Proof. unfold Counter_update. apply set_fold_empty. Qed.

Lemma startup_started (st : FuzzProcess) :
  pool st ≠ [] → startup st = (Raise AssertionError, st).
Proof.
  intros Hp. unfold startup. mrun. by rewrite bool_decide_eq_false_2.
Qed.

Lemma startup_general (st : FuzzProcess) (first : ConjectureResult) :
  pool st = [] → counters_ok st →
  baseline st = Ok (Result first) →
  ∃ s6,
    pool s6 = [first] ∧
    minimal_example_arcs s6 = extra_information_arcs first ∧
    seen_arcs s6 = seen_arcs st ∧
    ninputs s6 = ninputs st + 1 ∧
    last_new_cov_at s6 = last_new_cov_at st ∧
    _hy_database_key s6 = _hy_database_key st ∧
    _fuzz_database_key s6 = _fuzz_database_key st ∧
    _replay_buffer s6 = _replay_buffer st ∧
    (is_Some (_database s6) ↔ is_Some (_database st)) ∧
    startup st =
      (Ok tt,
       match _database s6 with
       | Some db =>
           set_replay_buffer
             (sorted_reverse (ExampleDatabase_fetch (_hy_database_key s6) db
                              ∪ ExampleDatabase_fetch (_fuzz_database_key s6) db)) s6
       | None => s6
       end).
Proof.
  intros Hp Hc Hb.
  destruct (startup_unfold st Hp Hc) as (g1 & g2 & y & Hy & Hs).
  rewrite Hb in Hy. injection Hy as <-. cbv beta iota zeta in Hs.
  unfold counters_ok in Hc.
  set (s5 := set_pool (SortedKeyList_add first [])
               (set_minimal_example_arcs (extra_information_arcs first)
                  (set_fuzz_generator g2 (set_ninputs (ninputs st + 1)
                     (set_fuzz_generator g1 st))))) in *.
  assert (novelty s5 first = ∅) as Hnov.
  { unfold novelty. simpl. rewrite symmetric_difference_self. set_solver. }
  assert (∃ s6, _update first s5 = (Ok tt, s6) ∧ pool s6 = [first] ∧
            seen_arcs s6 = seen_arcs st) as (s6 & Hrun & Hp6 & Hseen).
  { destruct (decide (status first = OVERRUN)) as [Ho|Ho].
    - exists s5. unfold _update. by rewrite decide_True by done.
    - destruct (_update_returns s5 first Ho (or_intror Hnov)) as (s6 & Hrun & _ & Hpool & Hseen).
      { unfold counters_ok. simpl. lia. }
      exists s6. rewrite decide_True in Hpool by done.
      split; [done|]. split; [done|].
      rewrite Hseen. simpl. by rewrite symmetric_difference_self, Counter_update_empty. }
  pose proof (_update_paths s5 first) as Hpaths. rewrite Hrun in Hpaths. simpl in Hpaths.
  destruct Hpaths as ((_&_&_&Hhy&Hfz&Hmin&Hn&Hq) & Hlast & _ & _ & Hdb).
  exists s6.
  split; [done|]. split; [done|]. split; [done|]. split; [done|].
  split. { destruct Hlast as [[_ ->]|(_ & Hne & _)]; done. }
  split; [done|]. split; [done|]. split; [done|]. split.
  { destruct (_database st) as [db|]; [destruct Hdb as (db' & -> & _)|rewrite Hdb];
      split; eauto. }
  by rewrite Hs, Hrun.
Qed.

(** When the baseline execution overruns, [startup] stops at the read of
    [firstresult.extra_information]: the trial is counted, the generator
    has advanced and nothing else has changed. *)
Lemma startup_overrun (st : FuzzProcess) :
  pool st = [] → counters_ok st →
  baseline st = Ok Overrun →
  ∃ st', startup st = (Raise AttributeError, st') ∧
    same_data (set_ninputs (ninputs st + 1) st) st' ∧
    _replay_buffer st' = _replay_buffer st ∧
    random st' = random st.
Proof.
  intros Hp Hc Hb.
  destruct (startup_unfold st Hp Hc) as (g1 & g2 & y & Hy & Hs).
  rewrite Hb in Hy. injection Hy as <-. cbv beta iota zeta in Hs.
  eexists. split; [exact Hs|]. by repeat split.
Qed.

(** The baseline execution of a target that is not started yields an
    object. *)
Lemma baseline_yields (st : FuzzProcess) : ∃ y, baseline st = Ok y.
Proof.
  unfold baseline.
  destruct (Generator_send_None (fuzz_generator st)) as (r0 & g1 & -> & Hs1).
  destruct (Generator_send_started (replicate BUFFER_SIZE x00) g1 Hs1)
    as (y & g2 & Hg2 & _).
  exists y. simpl. by rewrite Hg2.
Qed.

Lemma run_one_cases (st : FuzzProcess) :
  let st' := (run_one st).2 in
  (pool st' = pool st ∨ ∃ result, pool st' = SortedKeyList_add result (pool st)) ∧
  (seen_arcs st' = seen_arcs st ∨
   ∃ arcs, seen_arcs st' = Counter_update arcs (seen_arcs st)) ∧
  (last_new_cov_at st' = last_new_cov_at st ∨
   pool st ≠ [] ∧ last_new_cov_at st' = ninputs st + 1) ∧
  (pool st = [] ∧ ninputs st' = ninputs st ∨
   pool st ≠ [] ∧ ninputs st' = ninputs st + 1).
Proof.
  destruct (run_one_paths st) as [[Hp ->]|(Hp & s2 & Hk & Hrun)]; simpl.
  { repeat split; auto. }
  destruct Hk as (_&_&_&_&_&Hseen&_&Hn&Hl&Hpool). simpl in *.
  destruct Hrun as [->|[result ->]].
  { rewrite Hseen, Hn, Hl, Hpool. repeat split; auto. }
  destruct (_update_paths s2 result)
    as ((_&_&_&_&_&_&Hn'&_) & Hpl & Hs & _).
  rewrite Hn', Hn, <- Hpool, <- Hseen, <- Hl.
  split; [|split; [|split]].
  - destruct Hpl as [[-> _]|(_&_&_&->&_)]; eauto.
  - destruct Hs as [->| ->]; eauto.
  - destruct Hpl as [[_ ->]|(_&_&_&_&->)]; [by left|right].
    split; [by rewrite Hpool|done].
  - right. split; [by rewrite Hpool|done].
Qed.

Lemma reachable_inv (st : FuzzProcess) :
  reachable st →
  counters_ok st ∧ keys_ok st ∧ 0 ≤ last_new_cov_at st ∧
  pool_sorted st ∧ Z.of_nat (length (pool st)) ≤ ninputs st ∧
  (pool st ≠ [] → 0 < ninputs st) ∧
  (∀ a n, seen_arcs st !! a = Some n → (1 ≤ n)%nat) ∧
  StronglySorted key_ge (_replay_buffer st) ∧ NoDup (_replay_buffer st).
Proof.
  induction 1 as [| st Hr IH | st Hr IH].
  - unfold counters_ok, keys_ok, pool_sorted. simpl.
    repeat split; try done; try constructor; try lia.
  - destruct IH as (Hc & Hk & Hl & Hs & Hlen & Hst & Hcnt & Hq & Hnd).
    destruct (decide (pool st = [])) as [Hp|Hp];
      [|rewrite startup_started by done; done].
    destruct (baseline_yields st) as ([|first] & Hb).
    { destruct (startup_overrun st Hp Hc Hb) as (st' & -> & Hk' & Hq' & _).
      destruct Hk' as (_ & Hhy & Hfz & _ & _ & Hseen & _ & Hn & Hl' & Hp').
      unfold counters_ok, keys_ok, pool_sorted in *. simpl in *.
      rewrite Hhy, Hfz, Hseen, Hn, Hl', Hp', Hq'.
      rewrite Hp in *. repeat split; try done; simpl; lia. }
    destruct (startup_general st first Hp Hc Hb)
      as (s6 & Hp6 & _ & Hseen & Hn & Hl6 & Hhy & Hfz & Hq6 & _ & ->).
    unfold counters_ok, keys_ok, pool_sorted in *. simpl.
    assert (0 ≤ ninputs st) by lia.
    destruct (_database s6); simpl; rewrite ?Hp6, ?Hseen, ?Hn, ?Hl6, ?Hhy, ?Hfz, ?Hq6;
      (split; [lia|]); (split; [done|]); (split; [done|]);
      (split; [repeat constructor|]); (split; [simpl; lia|]);
      (split; [lia|]); (split; [done|]).
    + split; [apply sorted_reverse_sorted|apply sorted_reverse_NoDup].
    + done.
  - destruct (decide (pool st = [])) as [Hp|Hp];
      [rewrite run_one_not_started by done; done|].
    destruct IH as (Hc & Hk & Hl & Hs & Hlen & Hst & Hcnt & Hq & Hnd).
    destruct (run_one_invariants st Hc Hk) as [Hc' Hk'].
    destruct (run_one_cases st) as (Hpool & Hseen & Hlast & [[Hp' _]|[_ Hn]]); [done|].
    split; [done|]. split; [done|].
    unfold counters_ok, pool_sorted in *.
    split. { destruct Hlast as [->|[_ ->]]; lia. }
    split. { destruct Hpool as [->|[result ->]]; [done|by apply SortedKeyList_add_sorted]. }
    split.
    { rewrite Hn. destruct Hpool as [->|[result ->]]; [lia|].
      rewrite SortedKeyList_add_Permutation. simpl. lia. }
    split.
    { rewrite Hn. intros _. apply Hst in Hp. lia. }
    split.
    { intros a n. destruct Hseen as [->|[arcs ->]]; [apply Hcnt|].
      rewrite Counter_update_lookup. case_decide; [intros [= <-]; lia|apply Hcnt]. }
    destruct (run_one_queue st) as [->|[b Hb]]; [done|].
    rewrite Hb in Hq, Hnd. split.
    + by apply StronglySorted_app_1_l in Hq.
    + by apply NoDup_app in Hnd as (? & _).
Qed.

Lemma random_choices_elems {A} (population : list A) (k : nat)
    (s s' : FuzzProcess) (cs : list A) :
  random_choices population k s = (Ok cs, s') →
  Forall (λ c, c ∈ population) cs ∧ length cs = k.
Proof.
  revert s s' cs. induction k as [|k IH]; intros s s' cs; simpl.
  - unfold mret, M_ret. by intros [= <- _].
  - intros (x & s1 & _ & Hk)%bind_Ok.
    destruct (population !! _) as [c|] eqn:Hc; [|done].
    apply bind_Ok in Hk as (cs' & s2 & Hcs & Hret).
    unfold mret, M_ret in Hret. injection Hret as <- _.
    destruct (IH _ _ _ Hcs) as [Hall Hlen]. split; [|by rewrite <- Hlen].
    constructor; [|done]. by eapply list_elem_of_lookup_2.
Qed.

Lemma random_randint_value (a b : Z) (s s' : FuzzProcess) (v : Z) :
  random_randint a b s = (Ok v, s') → v = (Random_randint a b (random s)).1.
Proof. unfold random_randint. destruct (Random_randint _ _ _). by intros [= <- _]. Qed.

Lemma _gen_bytes_loop_length (n : nat) (s s' : FuzzProcess) (bs : bytes) :
  _gen_bytes_loop n s = (Ok bs, s') → length bs = n.
Proof.
  revert s s' bs. induction n as [|n IH]; intros s s' bs; simpl.
  - unfold mret, M_ret. by intros [= <- _].
  - intros (v & s1 & _ & Hk)%bind_Ok.
    destruct (if (0 <=? v) && (v <? 256) then Byte.of_N (Z.to_N v) else None); [|done].
    apply bind_Ok in Hk as (bs' & s2 & Hbs & Hret).
    unfold mret, M_ret in Hret. injection Hret as <- _. simpl. by rewrite (IH _ _ _ Hbs).
Qed.

Lemma slice_to_prefix (stop : Z) (b : bytes) : slice_to stop b `prefix_of` b.
Proof. unfold slice_to. destruct (stop <? 0); apply prefix_take. Qed.

(** What [generate_prefix] can return: the last entry of the replay
    queue, which it removes without drawing from [random]; or, with an
    empty queue, the empty buffer (always so, and with no draw, during the
    first 100 trials) or a prefix of one pool buffer, some bytes, and a
    prefix of a pool buffer again, at most 9 bytes in between when
    [randint] keeps to its range. *)
Theorem generate_prefix_shape (st st' : FuzzProcess) (b : bytes) :
  generate_prefix st = (Ok b, st') →
  (∃ q, _replay_buffer st = q ++ [b] ∧ st' = set_replay_buffer q st) ∨
  _replay_buffer st = [] ∧ (ninputs st < 100 → b = [] ∧ st' = st) ∧
  (b = [] ∨
   ∃ r1 r2 p1 middle p2,
     r1 ∈ pool st ∧ r2 ∈ pool st ∧
     p1 `prefix_of` buffer r1 ∧ p2 `prefix_of` buffer r2 ∧
     b = p1 ++ middle ++ p2 ∧
     (randint_in_range → (length middle ≤ 9)%nat)).
Proof.
  destruct (_replay_buffer st) as [|b0 q _] eqn:E using rev_ind.
  2: { rewrite (generate_prefix_replay st q b0 E). intros [= <- <-]. left. by exists q. }
  intros Hrun. right. split; [done|].
  unfold generate_prefix in Hrun. unfold mbind at 1, M_bind at 1, get in Hrun.
  rewrite E in Hrun. cbn [list_pop last] in Hrun.
  apply bind_Ok in Hrun as (unguided & s1 & Hu & Hrun).
  destruct (ninputs st <? 100) eqn:Hn.
  { unfold mret, M_ret in Hu. injection Hu as <- <-.
    unfold mret, M_ret in Hrun. injection Hrun as <- <-. by auto. }
  split; [intros ?; apply Z.ltb_ge in Hn; lia|].
  destruct unguided.
  { unfold mret, M_ret in Hrun. injection Hrun as <- _. by left. }
  right. apply bind_Ok in Hrun as (cs & s2 & Hcs & Hrun).
  apply random_choices_elems in Hcs as [Hall _].
  destruct cs as [|r1 [|r2 [|? ?]]]; try done.
  apply bind_Ok in Hrun as (v1 & s3 & _ & Hrun).
  apply bind_Ok in Hrun as (n & s4 & Hn9 & Hrun).
  apply bind_Ok in Hrun as (middle & s5 & Hmid & Hrun).
  apply bind_Ok in Hrun as (v3 & s6 & _ & Hrun).
  unfold mret, M_ret in Hrun. injection Hrun as <- _.
  apply Forall_cons in Hall as [Hr1 Hall]. apply Forall_cons in Hall as [Hr2 _].
  exists r1, r2, (slice_to v1 (buffer r1)), middle, (slice_to v3 (buffer r2)).
  split; [done|]. split; [done|].
  split; [apply slice_to_prefix|]. split; [apply slice_to_prefix|]. split; [done|].
  intros Hrange. apply _gen_bytes_loop_length in Hmid. rewrite Hmid.
  apply random_randint_value in Hn9. rewrite Hn9.
  destruct (Hrange 0 9 (random s3)); lia.
Qed.

Lemma random_index_in_range (x : Q) (n : nat) :
  (0 <= x)%Q → (x < 1)%Q → (0 < n)%nat →
  (Z.to_nat (Qfloor (x * inject_Z (Z.of_nat n))) < n)%nat.
Proof.
  intros H0x Hx1 Hn.
  assert (0 < inject_Z (Z.of_nat n))%Q as Hnq.
  { change 0%Q with (inject_Z 0). rewrite <- Zlt_Qlt. lia. }
  assert (x * inject_Z (Z.of_nat n) < inject_Z (Z.of_nat n))%Q as Hlt.
  { rewrite <- (Qmult_1_l (inject_Z (Z.of_nat n))) at 2.
    by apply Qmult_lt_compat_r. }
  assert (Qfloor (x * inject_Z (Z.of_nat n)) < Z.of_nat n) as Hfloor.
  { rewrite Zlt_Qlt. eapply Qle_lt_trans; [apply Qfloor_le|done]. }
  lia.
Qed.

Lemma random_choices_total {A} (population : list A) (k : nat) (s : FuzzProcess) :
  random_in_unit_interval → population ≠ [] →
  ∃ cs s', random_choices population k s = (Ok cs, s').
Proof.
  intros Hrange Hne. revert s. induction k as [|k IH]; intros s; simpl.
  - by eexists _, _.
  - unfold mbind at 1, M_bind at 1, random_random.
    destruct (Hrange (random s)) as [H0x Hx1].
    destruct (Random_random (random s)) as [x r]. simpl in *.
    destruct (population !! _) as [c|] eqn:Hc.
    + destruct (IH (set_random r s)) as (cs & s' & Hcs).
      exists (c :: cs), s'. unfold mbind, M_bind. by rewrite Hcs.
    + apply lookup_ge_None in Hc.
      pose proof (random_index_in_range x (length population) H0x Hx1) as Hidx.
      destruct population; [done|]. simpl in *. lia.
Qed.

Lemma _gen_bytes_loop_total (n : nat) (s : FuzzProcess) :
  randint_in_range → ∃ bs s', _gen_bytes_loop n s = (Ok bs, s').
Proof.
  intros Hrange. revert s. induction n as [|n IH]; intros s; simpl.
  - by eexists _, _.
  - unfold mbind at 1, M_bind at 1, random_randint.
    destruct (Hrange 0 255 (random s)) as [Hlo Hhi]; [lia|].
    destruct (Random_randint 0 255 (random s)) as [v r]. simpl in *.
    rewrite (proj2 (Z.leb_le 0 v)), (proj2 (Z.ltb_lt v 256)) by lia. simpl.
    destruct (Byte.of_N (Z.to_N v)) as [b|] eqn:Hb.
    + destruct (IH (set_random r s)) as (bs & s' & Hbs).
      exists (b :: bs), s'. unfold mbind, M_bind. by rewrite Hbs.
    + apply Byte.of_N_None_iff in Hb. lia.
Qed.

(** When [randint] keeps to its range, [_gen_bytes(n)] returns exactly
    [n] bytes (none for [n <= 0]) without raising, and changes nothing of
    the target but its random stream. *)
Theorem _gen_bytes_length (n : Z) (st : FuzzProcess) :
  randint_in_range →
  ∃ bs st', _gen_bytes n st = (Ok bs, st') ∧
    length bs = Z.to_nat n ∧ same_data st st' ∧
    _replay_buffer st' = _replay_buffer st ∧ fuzz_generator st' = fuzz_generator st.
Proof.
  intros Hrange. unfold _gen_bytes.
  destruct (_gen_bytes_loop_total (Z.to_nat n) st Hrange) as (bs & st' & Hrun).
  exists bs, st'. split; [done|]. split; [by eapply _gen_bytes_loop_length|].
  pose proof (keeps__gen_bytes n st) as Hk.
  pose proof (keeps_field__gen_bytes _replay_buffer n (λ _ _, eq_refl) st) as Hq.
  pose proof (keeps_field__gen_bytes fuzz_generator n (λ _ _, eq_refl) st) as Hg.
  unfold _gen_bytes in *. rewrite Hrun in *. done.
Qed.

Lemma generate_prefix_total (st : FuzzProcess) :
  random_in_unit_interval → randint_in_range → pool st ≠ [] →
  ∃ b st', generate_prefix st = (Ok b, st').
Proof.
  intros Hunit Hrange Hp.
  destruct (_replay_buffer st) as [|b0 q _] eqn:E using rev_ind.
  2: { rewrite (generate_prefix_replay st q b0 E). by eexists _, _. }
  unfold generate_prefix. unfold mbind at 1, M_bind at 1, get.
  rewrite E. cbn [list_pop last].
  assert (∀ s, ∃ b st',
    (random_choices (pool st) 2 ≫= λ choices,
       match choices with
       | [prefix; postfix] =>
           random_randint 0 (Z.of_nat (length (buffer prefix))) ≫= λ r1,
           random_randint 0 9 ≫= λ n, _gen_bytes n ≫= λ middle,
           random_randint 0 (Z.of_nat (length (buffer postfix))) ≫= λ r3,
           mret (slice_to r1 (buffer prefix) ++ middle ++ slice_to r3 (buffer postfix))
       | _ => raise ValueError
       end) s = (Ok b, st')) as Hsplice.
  { intros s. destruct (random_choices_total (pool st) 2 s Hunit Hp) as (cs & s1 & Hcs).
    destruct (random_choices_elems _ _ _ _ _ Hcs) as [_ Hlen].
    destruct cs as [|r1 [|r2 [|? ?]]]; try done.
    unfold mbind at 1, M_bind at 1. rewrite Hcs.
    unfold mbind at 1, M_bind at 1, random_randint at 1.
    destruct (Random_randint 0 _ (random s1)) as [v1 rnd1].
    unfold mbind at 1, M_bind at 1, random_randint at 1. cbn [random set_random].
    destruct (Random_randint 0 9 _) as [n rnd2].
    unfold mbind at 1, M_bind at 1.
    destruct (_gen_bytes_loop_total (Z.to_nat n) (set_random rnd2 (set_random rnd1 s1)) Hrange)
      as (middle & s4 & Hmid).
    unfold _gen_bytes. rewrite Hmid.
    unfold mbind at 1, M_bind at 1, random_randint at 1.
    destruct (Random_randint 0 _ (random s4)) as [v3 rnd3].
    by eexists _, _. }
  destruct (ninputs st <? 100).
  - unfold mbind, M_bind, mret, M_ret. by eexists _, _.
  - unfold mbind at 1, M_bind at 1. unfold mbind at 1, M_bind at 1, random_random.
    destruct (Random_random (random st)) as [x r].
    unfold mret at 1, M_ret at 1.
    destruct (Qle_bool x (1 # 100)); [by eexists _, _|]. apply Hsplice.
Qed.

(** With a [random] that keeps to its ranges, [run_one] on a started
    target (non-empty pool, [last_new_cov_at] not after [ninputs]) returns
    normally whenever the target has a database; without one it either
    returns normally or raises [AttributeError], and nothing else. *)
Theorem run_one_returns (st : FuzzProcess) :
  random_in_unit_interval → randint_in_range →
  pool st ≠ [] → counters_ok st →
  (is_Some (_database st) → (run_one st).1 = Ok tt) ∧
  ((run_one st).1 = Ok tt ∨
   (run_one st).1 = Raise AttributeError ∧ _database st = None).
Proof.
  intros Hunit Hrange Hp Hc.
  assert (∃ result s2, run_input (set_ninputs (ninputs st + 1) st) = (Ok result, s2))
    as (result & s2 & Hrun).
  { set (s0 := set_ninputs (ninputs st + 1) st).
    unfold run_input. unfold mbind at 1, M_bind at 1, fuzz_generator_send at 1.
    destruct (Generator_send_None (fuzz_generator s0)) as (r0 & g1 & -> & Hs1).
    destruct (generate_prefix_total (set_fuzz_generator g1 s0) Hunit Hrange Hp)
      as (p & s2 & Hgp).
    unfold mbind, M_bind. rewrite Hgp. unfold fuzz_generator_send.
    assert (fuzz_generator s2 = g1) as ->.
    { pose proof (generate_prefix_keeps fuzz_generator (λ _ _, eq_refl) (λ _ _, eq_refl)
                    (set_fuzz_generator g1 s0)) as Hg. by rewrite Hgp in Hg. }
    destruct (Generator_send_started p g1 Hs1) as (r & g2 & -> & _). by eexists _, _. }
  rewrite (run_one_unfold st Hp), Hrun.
  pose proof (keeps_run_input (set_ninputs (ninputs st + 1) st)) as Hk.
  rewrite Hrun in Hk. destruct Hk as (_&_&_&Hdb&_&_&_&Hn&Hl&_). simpl in *.
  destruct result as [|result]; [simpl; split; [done|by left]|].
  destruct (0 <? Status_value (status result)) eqn:Hst;
    [|simpl; split; [done|by left]].
  apply Z.ltb_lt in Hst. apply (status_better_than_OVERRUN result) in Hst.
  assert (counters_ok s2) as Hc2 by (unfold counters_ok in *; lia).
  destruct (decide (is_Some (_database st) ∨ novelty s2 result = ∅)) as [Hok|Hbad].
  - assert (is_Some (_database s2) ∨ novelty s2 result = ∅) as Hok'
      by (rewrite Hdb; done).
    destruct (_update_returns s2 result Hst Hok' Hc2) as (st' & -> & _).
    simpl. split; [done|by left].
  - assert (_database st = None) as Hnone.
    { destruct (_database st); [destruct Hbad; eauto|done]. }
    rewrite _update_no_database; [|by rewrite Hdb|done|tauto].
    split; [by rewrite Hnone; intros [? [=]]|]. by right.
Qed.

(** Every trial executes the test twice: [run_input] on a started
    generator first resumes it with no value, which runs the test on the
    empty buffer and drops the result, and then sends the generated prefix;
    the result that [run_one] goes on with is the one of the second
    execution, from the test state that the first one left. *)
Theorem run_input_executes_twice (st s2 : FuzzProcess) (p : bytes) :
  gen_started (fuzz_generator st) = true →
  let ts1 := (run_test [] (test_state (fuzz_generator st))).2 in
  generate_prefix
    (set_fuzz_generator {| gen_started := true; test_state := ts1 |} st) = (Ok p, s2) →
  run_input st =
    (Ok (as_result (run_test p ts1).1),
     set_fuzz_generator
       {| gen_started := true; test_state := (run_test p ts1).2 |} s2).
Proof.
  intros Hs ts1 Hgp. unfold run_input.
  unfold mbind at 1, M_bind at 1, fuzz_generator_send at 1, Generator_send.
  rewrite Hs. subst ts1. destruct (run_test [] _) as [r0 ts1] eqn:E0. simpl in *.
  unfold mbind, M_bind. rewrite Hgp. unfold fuzz_generator_send, Generator_send.
  pose proof (generate_prefix_keeps fuzz_generator (λ _ _, eq_refl) (λ _ _, eq_refl)
                (set_fuzz_generator {| gen_started := true; test_state := ts1 |} st)) as Hg.
  rewrite Hgp in Hg. simpl in Hg. rewrite Hg. simpl.
  by destruct (run_test p ts1).
Qed.


(** ** Reporting and scheduling *)

(** The snapshot for the dashboard cannot fail on a reachable target: it
    is computed without raising and without changing the target, counts
    the trials since the last new coverage as a number that is not
    negative, gives the estimate as the float 1 / (1 + that number), and
    its note is
    "found failing example" exactly when a failure is recorded and
    "starting up..." only before [startup]. *)
Theorem reachable_json_description (st : FuzzProcess) :
  reachable st →
  ∃ d, _json_description st = (Ok d, st) ∧
    json_nodeid d = nodeid st ∧
    json_ninputs d = ninputs st ∧
    json_arcs d = size (seen_arcs st) ∧
    json_since_new_cov d = ninputs st - last_new_cov_at st ∧
    0 ≤ json_since_new_cov d ∧
    json_estimated_value d = int_truediv 1 (1 + json_since_new_cov d) ∧
    (json_note d = "found failing example"%string ↔ _interesting_examples st ≠ ∅) ∧
    (json_note d = "starting up..."%string → pool st = []).
Proof.
  intros (Hc & _ & _ & _ & _ & Hst & _)%reachable_inv.
  unfold _json_description. unfold mbind at 1, M_bind at 1, get.
  unfold mbind, M_bind. rewrite (estimated_value_ok st Hc).
  unfold mret, M_ret. eexists. split; [reflexivity|]. simpl.
  unfold counters_ok in Hc.
  split; [done|]. split; [done|]. split; [done|]. split; [done|]. split; [lia|].
  split; [f_equal; lia|].
  unfold has_found_failure. split.
  - case_bool_decide; [done|]. split; [|done].
    case_bool_decide; [done|]. by destruct (ninputs st =? 0).
  - case_bool_decide; [done|]. case_bool_decide; [done|].
    destruct (ninputs st =? 0) eqn:E; [|done]. intros _.
    apply Z.eqb_eq in E. destruct (decide (pool st = [])) as [|Hp]; [done|].
    apply Hst in Hp. lia.
Qed.

(** The scheduler's order: for two targets whose [last_new_cov_at] is not
    after [ninputs] and that have gone fewer than 2^52 trials without new
    coverage, the keys are computed without raising, neither target is
    changed, the keys lie in [-1.0, 0.0), and the first key is greater
    than the second, which is when [fuzz_several] moves the head target
    back, exactly when the first target has gone more trials without new
    coverage. *)
Theorem fuzz_several_key_order (t0 t1 : FuzzProcess) :
  counters_ok t0 →
  counters_ok t1 →
  ninputs t0 - last_new_cov_at t0 < 2 ^ 52 →
  ninputs t1 - last_new_cov_at t1 < 2 ^ 52 →
  ∃ k0 k1, fuzz_several_key t0 = (Ok k0, t0) ∧ fuzz_several_key t1 = (Ok k1, t1) ∧
    float_le (SFopp float_1) k0 = true ∧ float_lt k0 float_0 = true ∧
    (float_lt k1 k0 = true ↔
     ninputs t1 - last_new_cov_at t1 < ninputs t0 - last_new_cov_at t0).
Proof.
  intros Hc0 Hc1 Hk0 Hk1. unfold fuzz_several_key, mbind, M_bind.
  rewrite (estimated_value_ok t0 Hc0), (estimated_value_ok t1 Hc1).
  unfold mret, M_ret. eexists _, _. split; [reflexivity|]. split; [reflexivity|].
  unfold counters_ok in *.
  set (d0 := 1 + ninputs t0 - last_new_cov_at t0).
  set (d1 := 1 + ninputs t1 - last_new_cov_at t1).
  pose proof (int_truediv_1_lt_iff d1 d0 ltac:(unfold d1; lia) ltac:(unfold d0; lia))
    as Hiff.
  pose proof (int_truediv_1_le_1 d0 ltac:(unfold d0; lia)) as Hle.
  destruct (int_truediv_1_spec d0) as (m0 & E0 & _); [unfold d0; lia|].
  destruct (int_truediv_1_spec d1) as (m1 & E1 & _); [unfold d1; lia|].
  rewrite E0, E1 in *. cbn [SFopp float_1 negb].
  split; [by rewrite float_le_finite_neg|]. split; [done|].
  rewrite float_lt_finite_neg, Hiff. unfold d0, d1. lia.
Qed.

(** ** What holds of every target a driver can hold *)

(** In every reachable state [last_new_cov_at] lies between 0 and
    [ninputs], the fuzz key is [b"fuzz_"] followed by the primary key and
    so differs from it, and the pool is non-empty only when a trial has
    been counted. *)
Theorem reachable_counters_and_keys (st : FuzzProcess) :
  reachable st →
  0 ≤ last_new_cov_at st ≤ ninputs st ∧
  _fuzz_database_key st = fuzz_prefix ++ _hy_database_key st ∧
  _fuzz_database_key st ≠ _hy_database_key st ∧
  (pool st ≠ [] → 0 < ninputs st).
Proof.
  intros (Hc & Hk & Hl & _ & _ & Hst & _)%reachable_inv.
  unfold counters_ok in Hc. split; [lia|]. split; [done|].
  split; [by apply keys_ok_distinct|done].
Qed.

(** In every reachable state the pool is ordered by [sort_key] and has no
    more entries than trials were counted. *)
Theorem reachable_pool_sorted (st : FuzzProcess) :
  reachable st →
  StronglySorted key_le_result (pool st) ∧
  Z.of_nat (length (pool st)) ≤ ninputs st.
Proof. intros (_ & _ & _ & Hs & Hlen & _)%reachable_inv. done. Qed.

(** In every reachable state each key of [seen_arcs] has a hit count of
    at least one. *)
Theorem reachable_hit_counts_positive (st : FuzzProcess) (a : Arc) (n : nat) :
  reachable st → seen_arcs st !! a = Some n → (1 ≤ n)%nat.
Proof. intros (_ & _ & _ & _ & _ & _ & Hcnt & _)%reachable_inv. apply Hcnt. Qed.

(** In every reachable state the replay queue is in strictly descending
    [sort_key] order, so the buffer that [generate_prefix] replays next is
    smaller than every buffer still waiting. *)
Theorem reachable_replay_smallest_next (st : FuzzProcess) (q : list bytes) (b : bytes) :
  reachable st →
  _replay_buffer st = q ++ [b] →
  generate_prefix st = (Ok b, set_replay_buffer q st) ∧
  ∀ b', b' ∈ q → key_lt b b'.
Proof.
  intros (_ & _ & _ & _ & _ & _ & _ & Hs & Hnd)%reachable_inv Hq.
  split; [by apply generate_prefix_replay|].
  rewrite Hq in Hs, Hnd. intros b' Hb'.
  apply StronglySorted_app in Hs as (Hs & _ & _).
  assert (key_ge b' b) as Hge by (apply Hs; [done|by left]).
  apply key_ge_spec in Hge as [->|?]; [|done].
  apply NoDup_app in Hnd as (_ & Hnd & _). destruct (Hnd b Hb'). by left.
Qed.

(** ** What the database holds *)

Lemma startup_via_update (st : FuzzProcess) (first : ConjectureResult) :
  pool st = [] → counters_ok st →
  baseline st = Ok (Result first) →
  ∃ s5,
    _interesting_examples s5 = _interesting_examples st ∧
    _database s5 = _database st ∧
    _hy_database_key s5 = _hy_database_key st ∧
    _fuzz_database_key s5 = _fuzz_database_key st ∧
    counters_ok s5 ∧ pool s5 = [first] ∧ novelty s5 first = ∅ ∧
    ((startup st).2 = (_update first s5).2 ∨
     ∃ q, (startup st).2 = set_replay_buffer q (_update first s5).2).
Proof.
  intros Hp Hc Hb.
  destruct (startup_unfold st Hp Hc) as (g1 & g2 & y & Hy & Hs).
  rewrite Hb in Hy. injection Hy as <-. cbv beta iota zeta in Hs.
  unfold counters_ok in Hc.
  set (s5 := set_pool (SortedKeyList_add first [])
               (set_minimal_example_arcs (extra_information_arcs first)
                  (set_fuzz_generator g2 (set_ninputs (ninputs st + 1)
                     (set_fuzz_generator g1 st))))) in *.
  exists s5.
  do 4 (split; [done|]). split; [unfold counters_ok; simpl; lia|]. split; [done|].
  split. { unfold novelty. simpl. rewrite symmetric_difference_self. set_solver. }
  rewrite Hs.
  destruct (_update first s5) as [[[]|e] s6]; simpl; [|by left].
  destruct (_database s6); [right; by eexists|by left].
Qed.

Lemma _update_failures_saved (s : FuzzProcess) (result : ConjectureResult) :
  is_Some (_database s) → counters_ok s →
  (∀ o x, _interesting_examples s !! o = Some x →
          x ∈ saved_under (_hy_database_key s) s) →
  ∀ o x, _interesting_examples (_update result s).2 !! o = Some x →
         x ∈ saved_under (_hy_database_key s) (_update result s).2.
Proof.
  intros [db Hdb] Hc Hinv o x.
  destruct (_update_database_grows s result) as [_ Hgrow].
  destruct (decide (status result = OVERRUN)) as [Ho|Ho].
  { unfold _update. rewrite decide_True by done. apply Hinv. }
  destruct (_update_spec s db result Hdb Ho Hc)
    as (s' & Hrun & _ & _ & _ & Hmap & Hdb' & _).
  rewrite Hrun. simpl. rewrite Hrun in Hgrow. simpl in Hgrow. rewrite Hmap.
  case_decide as Hi; [|by intros ?%Hinv%Hgrow].
  unfold setdefault in *.
  destruct (_interesting_examples s !! interesting_origin result) as [y|] eqn:E;
    simpl in *; [by intros ?%Hinv%Hgrow|].
  destruct (decide (interesting_origin result = o)) as [<-|Hne];
    [rewrite lookup_insert_eq|rewrite lookup_insert_ne by done; by intros ?%Hinv%Hgrow].
  intros [= <-]. unfold saved_under. rewrite Hdb'. rewrite tuple_le_refl.
  rewrite fetch_save, decide_True by done. set_solver.
Qed.

Lemma _update_pool_saved (s : FuzzProcess) (result : ConjectureResult) :
  counters_ok s →
  pool (_update result s).2 = pool s ∨
  pool (_update result s).2 = SortedKeyList_add result (pool s) ∧
  buffer result ∈ saved_under (_fuzz_database_key s) (_update result s).2.
Proof.
  intros Hc.
  destruct (_update_paths s result) as (_ & [[Hp _]|(Ho & Hn & [db Hdb] & Hp & _)] & _);
    [by left|right].
  split; [done|].
  destruct (_update_spec s db result Hdb Ho Hc) as (s' & Hrun & _ & _ & _ & _ & Hdb' & _).
  rewrite Hrun. simpl. unfold saved_under. rewrite Hdb'.
  simpl. destruct (decide (novelty s result = ∅)); [done|].
  destruct (decide _); [destruct (tuple_le _ _)|];
    rewrite ?fetch_save; repeat case_decide; set_solver.
Qed.

Lemma run_one_database_handle (st : FuzzProcess) :
  is_Some (_database (run_one st).2) ↔ is_Some (_database st).
Proof.
  destruct (run_one_paths st) as [[_ ->]|(_ & s2 & Hk & Hrun)]; [done|].
  assert (_database s2 = _database st) as Hdb.
  { destruct Hk as (_&_&_&->&_). done. }
  destruct Hrun as [->|[result ->]]; [by rewrite Hdb|].
  destruct (_update_database_grows s2 result) as [-> _]. by rewrite Hdb.
Qed.

Lemma reachable_db_inv (st : FuzzProcess) :
  reachable st → is_Some (_database st) →
  (∀ o x, _interesting_examples st !! o = Some x →
          x ∈ saved_under (_hy_database_key st) st) ∧
  ∃ first, ∀ r, r ∈ pool st →
    r = first ∨ buffer r ∈ saved_under (_fuzz_database_key st) st.
Proof.
  induction 1 as [| st Hr IH | st Hr IH].
  - intros _. simpl. split; [intros o x; by rewrite lookup_empty|].
    exists {| buffer := []; status := VALID; extra_information_arcs := ∅;
              interesting_origin := None |}.
    intros r Hr. by apply elem_of_nil in Hr.
  - destruct (reachable_inv st Hr) as (Hc & _).
    destruct (decide (pool st = [])) as [Hp|Hp];
      [|rewrite startup_started by done; done].
    destruct (baseline_yields st) as ([|first] & Hb).
    { destruct (startup_overrun st Hp Hc Hb) as (st' & -> & Hk' & _).
      destruct Hk' as (_ & Hhy & _ & Hdb & Hmap & _ & _ & _ & _ & Hp').
      simpl in *. intros Hsome. rewrite Hdb in Hsome. destruct (IH Hsome) as [IHf _].
      split.
      - intros o x. unfold saved_under. rewrite Hmap, Hhy, Hdb. apply IHf.
      - exists {| buffer := []; status := VALID; extra_information_arcs := ∅;
                  interesting_origin := None |}.
        intros r. rewrite Hp', Hp. by intros ?%elem_of_nil. }
    destruct (startup_via_update st first Hp Hc Hb)
      as (s5 & Hmap & Hdb & Hhy & Hfz & Hc5 & Hp5 & Hnov & Hfin).
    pose proof (_update_paths s5 first) as ((_&_&_&Hhy6&Hfz6&_) & Hpool6 & _).
    destruct (_update_database_grows s5 first) as [Hsome _].
    assert (pool (_update first s5).2 = [first]) as Hp6.
    { destruct Hpool6 as [[-> _]|(_ & Hne & _)]; done. }
    assert (∀ (s' : FuzzProcess),
      _interesting_examples s' = _interesting_examples (_update first s5).2 →
      _database s' = _database (_update first s5).2 →
      _hy_database_key s' = _hy_database_key (_update first s5).2 →
      pool s' = pool (_update first s5).2 →
      is_Some (_database s') →
      (∀ o x, _interesting_examples s' !! o = Some x →
              x ∈ saved_under (_hy_database_key s') s') ∧
      ∃ first, ∀ r, r ∈ pool s' →
        r = first ∨ buffer r ∈ saved_under (_fuzz_database_key s') s') as Hgoal.
    { intros s' Em Ed Eh Ep Hs'. rewrite Ed, Hsome, Hdb in Hs'.
      destruct (IH Hs') as [IHf _].
      split.
      - intros o x. unfold saved_under. rewrite Em, Ed, Eh, Hhy6.
        apply (_update_failures_saved s5 first); [by rewrite Hdb|done|].
        intros o' x'. unfold saved_under. rewrite Hmap, Hdb, Hhy. apply IHf.
      - exists first. intros r. rewrite Ep, Hp6.
        intros ->%list_elem_of_singleton. by left. }
    destruct Hfin as [->|[q ->]]; by apply Hgoal.
  - destruct (reachable_inv st Hr) as (Hc & _).
    intros Hdb'. pose proof (proj1 (run_one_database_handle st) Hdb') as Hdb. destruct (IH Hdb) as [IHf [first IHp]].
    destruct (run_one_paths st) as [[_ ->]|(Hp & s2 & Hk & Hrun)]; [eauto|].
    destruct Hk as (_&Hhy&Hfz&Hdb2&Hmap2&_&_&Hn2&Hl2&Hpool2). simpl in *.
    assert (counters_ok s2) as Hc2 by (unfold counters_ok in *; lia).
    assert (∀ k, saved_under k s2 = saved_under k st) as Hsaved
      by (intros k; unfold saved_under; by rewrite Hdb2).
    destruct Hrun as [->|[result ->]].
    { split.
      - intros o x. rewrite Hmap2, Hhy, Hsaved. apply IHf.
      - exists first. intros r. rewrite Hpool2, Hfz, Hsaved. apply IHp. }
    pose proof (_update_paths s2 result) as ((_&_&_&Hhy'&Hfz'&_) & _).
    destruct (_update_database_grows s2 result) as [_ Hgrow2].
    split.
    + intros o x. rewrite Hhy', Hhy. rewrite <- Hhy.
      apply (_update_failures_saved s2 result); [by rewrite Hdb2|done|].
      intros o' x'. rewrite Hmap2, Hhy, Hsaved. apply IHf.
    + exists first. intros r Hr'. rewrite Hfz'.
      destruct (_update_pool_saved s2 result Hc2) as [Hsame|[Hadd Hsavedr]].
      * rewrite Hsame, Hpool2 in Hr'. destruct (IHp r Hr') as [->|Hin]; [by left|right].
        apply Hgrow2. by rewrite Hfz, Hsaved.
      * rewrite Hadd, SortedKeyList_add_Permutation, Hpool2 in Hr'.
        apply elem_of_cons in Hr' as [->|Hr']; [by right|].
        destruct (IHp r Hr') as [->|Hin]; [by left|right].
        apply Hgrow2. by rewrite Hfz, Hsaved.
Qed.
(** On a reachable target with a database, every buffer that the
    interesting-examples map records for a failure origin is saved under
    the primary database key. *)
Theorem reachable_failures_are_saved (st : FuzzProcess) (o : option Origin) (x : bytes) :
  reachable st → is_Some (_database st) →
  _interesting_examples st !! o = Some x →
  x ∈ saved_under (_hy_database_key st) st.
Proof. intros Hr Hdb. destruct (reachable_db_inv st Hr Hdb) as [Hf _]. apply Hf. Qed.

(** On a reachable target with a database, every pool entry but at most
    one, the baseline that [startup] inserts without saving it, has its
    buffer saved under the fuzz key. *)
Theorem reachable_pool_is_saved (st : FuzzProcess) :
  reachable st → is_Some (_database st) →
  ∃ first, ∀ r, r ∈ pool st →
    r = first ∨ buffer r ∈ saved_under (_fuzz_database_key st) st.
Proof. intros Hr Hdb. by destruct (reachable_db_inv st Hr Hdb) as [_ Hp]. Qed.

End Properties.

(** * The properties on the concrete substrate *)

Lemma outcome_pair {A S : Type} (x : outcome A * S) (a : A) :
  x.1 = Ok a → x = (Ok a, x.2).
Proof. destruct x as [o s]; simpl. by intros ->. Qed.

Section Examples.
#[local] Existing Instance demo_types.
#[local] Existing Instance demo_substrate.

(** Splits a conjunction of closed facts and decides each by evaluation. *)
Ltac evaluate :=
  intros;
  repeat match goal with |- _ ∧ _ => split end;
  compute_done.

(** The specification's example of novelty, on a target with a database:
    baseline arcs a, b, seen arcs a, b, c and a result with arcs a, c, d;
    the novelty set is d, the result is admitted and the seen arcs become
    a, b, c, d. *)
Lemma update_novelty_admission_witness :
  minimal_example_arcs demo_seen_abc = {["a"; "b"]} ∧
  dom (seen_arcs demo_seen_abc) = {["a"; "b"; "c"]} ∧
  extra_information_arcs (demo_novel VALID) = {["a"; "c"; "d"]} ∧
  novelty demo_seen_abc (demo_novel VALID) = {["d"]} ∧
  ∃ st', _update (demo_novel VALID) demo_seen_abc = (Ok tt, st') ∧
    demo_novel VALID ∈ pool st' ∧
    dom (seen_arcs st') = {["a"; "b"; "c"; "d"]}.
Proof.
  do 4 (split; [compute_done|]).
  destruct (update_novelty_admission demo_seen_abc (demo_novel VALID))
    as [_ (st' & Hrun & Hadd & _ & Hseen)].
  - simpl. lia.
  - left. compute_done.
  - compute_done.
  - exists st'. split; [exact Hrun|]. split.
    + apply Hadd. compute_done.
    + rewrite Hseen. compute_done.
Defined.

(** C1 at a target without a database: the VALID result with arcs a, c, d
    has the novelty set b, c, d against the baseline a, b with nothing
    seen, and [_update] raises [AttributeError] at the save under the fuzz
    key; the result is not added to the pool and no arc is recorded as
    seen, while on the same target with a database the result is admitted
    and the three arcs are recorded. *)
Lemma update_novel_without_database :
  let st := demo_started ["a"; "b"] (demo_novel VALID) None in
  let st' := (_update (demo_novel VALID) st).2 in
  let st_db := demo_ab (demo_novel VALID) in
  _database st = None ∧
  status (demo_novel VALID) = VALID ∧
  minimal_example_arcs st = {["a"; "b"]} ∧
  dom (seen_arcs st) = ∅ ∧
  novelty st (demo_novel VALID) = {["b"; "c"; "d"]} ∧
  (_update (demo_novel VALID) st).1 = Raise AttributeError ∧
  pool st' = pool st ∧
  (demo_novel VALID ∉ pool st') ∧
  dom (seen_arcs st') = ∅ ∧
  (_update (demo_novel VALID) st_db).1 = Ok tt ∧
  demo_novel VALID ∈ pool (_update (demo_novel VALID) st_db).2 ∧
  dom (seen_arcs (_update (demo_novel VALID) st_db).2) = {["b"; "c"; "d"]}.
Proof. evaluate. Qed.

Lemma first_failure_saved_witness :
  ∃ st' db', _update demo_fail10 (demo_ab demo_fail10) = (Ok tt, st') ∧
    _database st' = Some db' ∧
    buffer demo_fail10 ∈ ExampleDatabase_fetch [x6b] db' ∧
    _interesting_examples st' !! interesting_origin demo_fail10 =
      Some (buffer demo_fail10).
Proof.
  apply (first_failure_saved (demo_ab demo_fail10) ∅ demo_fail10).
  - compute_done.
  - compute_done.
  - reflexivity.
  - compute_done.
Defined.

(** C2 as stated fails: the 10-byte buffer arrives first, is the first
    failure of its origin, and is saved under the primary key; it is still
    there after the 4-byte buffer of the same origin has been saved. *)
Lemma dedup_first_buffer_is_saved :
  let st := demo_ab demo_fail10 in
  let st1 := (_update demo_fail10 st).2 in
  let st2 := (_update demo_fail4 st1).2 in
  length (buffer demo_fail10) = 10%nat ∧ length (buffer demo_fail4) = 4%nat ∧
  status demo_fail10 = INTERESTING ∧ status demo_fail4 = INTERESTING ∧
  interesting_origin demo_fail10 = interesting_origin demo_fail4 ∧
  _hy_database_key st = [x6b] ∧
  (_update demo_fail10 st).1 = Ok tt ∧
  (_update demo_fail4 st1).1 = Ok tt ∧
  saved_under [x6b] st = ∅ ∧
  saved_under [x6b] st1 = {[buffer demo_fail10]} ∧
  saved_under [x6b] st2 = {[buffer demo_fail10; buffer demo_fail4]}.
Proof. evaluate. Qed.

Lemma primary_key_dedup_witness :
  ∃ st2 db2,
    (_update demo_fail4 (_update demo_fail10 (demo_ab demo_fail10)).2).2 = st2 ∧
    _database st2 = Some db2 ∧
    buffer demo_fail10 ∈ ExampleDatabase_fetch [x6b] db2 ∧
    buffer demo_fail4 ∈ ExampleDatabase_fetch [x6b] db2.
Proof.
  destruct (primary_key_dedup (demo_ab demo_fail10) ∅ demo_fail10 demo_fail4)
    as (st1 & st2 & db1 & db2 & x1 & x2 & Hrun1 & Hrun2 & _ & Hdb2 & _ & _ & _ & _ & Hboth).
  - compute_done.
  - compute_done.
  - reflexivity.
  - reflexivity.
  - reflexivity.
  - reflexivity.
  - exists st2, db2. rewrite Hrun1. cbn [snd]. rewrite Hrun2. cbn [snd].
    split; [reflexivity|]. split; [exact Hdb2|].
    apply Hboth; [compute_done|compute_done].
Defined.

(** C3 on two failures of one origin: after the 10-byte and then the
    4-byte buffer, the map has one entry for the origin and it still holds
    the 10-byte buffer, which is not the smallest seen. *)
Lemma interesting_examples_keeps_first :
  let st1 := (_update demo_fail10 (demo_ab demo_fail10)).2 in
  let st2 := (_update demo_fail4 st1).2 in
  status demo_fail10 = INTERESTING ∧ status demo_fail4 = INTERESTING ∧
  interesting_origin demo_fail10 = interesting_origin demo_fail4 ∧
  (_update demo_fail10 (demo_ab demo_fail10)).1 = Ok tt ∧
  (_update demo_fail4 st1).1 = Ok tt ∧
  _interesting_examples st2 =
    {[interesting_origin demo_fail10 := buffer demo_fail10]} ∧
  tuple_lt (sort_key (inr demo_fail4)) (sort_key (inr demo_fail10)) = true.
Proof. evaluate. Qed.

(** C4 as stated fails: with a two-byte and a one-byte buffer stored, the
    queue after [startup] is in descending order and the first call of
    [generate_prefix] returns the one-byte buffer, the smallest. *)
Lemma replay_returns_smallest_first :
  let st := demo_started ["a"; "b"] (demo_novel VALID) (Some demo_saved) in
  _replay_buffer st = [[x01; x02]; [x03]] ∧
  (generate_prefix st).1 = Ok [x03] ∧
  _replay_buffer (generate_prefix st).2 = [[x01; x02]] ∧
  tuple_lt (sort_key (inl [x03])) (sort_key (inl [x01; x02])) = true.
Proof. evaluate. Qed.

Lemma startup_replay_order_witness :
  let st := demo_target (demo_test ["a"; "b"] (demo_novel VALID)) (Some demo_saved) in
  ∃ st', startup st = (Ok tt, st') ∧
    drain 2 st' = (Ok [[x03]; [x01; x02]], set_replay_buffer [] st').
Proof.
  intros st.
  destruct (startup_replay_order st demo_saved) as [Hreturns Hafter].
  - reflexivity.
  - compute_done.
  - reflexivity.
  - destruct (Hreturns (demo_result VALID [x00] ["a"; "b"] None)) as (st' & Hrun);
      [compute_done|].
    destruct (Hafter st' Hrun) as (db' & _ & _ & _ & _ & _ & Hdrain & _).
    exists st'. split; [exact Hrun|].
    assert (_replay_buffer st' = [[x01; x02]; [x03]]) as Hq.
    { replace st' with (startup st).2 by (rewrite Hrun; reflexivity).
      compute_done. }
    rewrite Hq in Hdrain. exact Hdrain.
Defined.



(** C7 as stated fails: an INVALID result that covers a new arc is added
    to the pool, saved under the fuzz key and counted in the seen arcs. *)
Lemma invalid_result_is_admitted :
  let st := demo_ab (demo_novel INVALID) in
  let st' := (run_one st).2 in
  (run_input (set_ninputs (ninputs st + 1) st)).1 = Ok (Result (demo_novel INVALID)) ∧
  status (demo_novel INVALID) = INVALID ∧
  (run_one st).1 = Ok tt ∧
  length (pool st) = 1%nat ∧
  length (pool st') = 2%nat ∧
  demo_novel INVALID ∈ pool st' ∧
  dom (seen_arcs st) = ∅ ∧
  dom (seen_arcs st') = {["b"; "c"; "d"]} ∧
  saved_under (_fuzz_database_key st) st = ∅ ∧
  saved_under (_fuzz_database_key st) st' = {[buffer (demo_novel INVALID)]}.
Proof. evaluate. Qed.

Lemma run_one_invalid_result_witness :
  let st := demo_ab (demo_novel INVALID) in
  ∃ st', run_one st = (Ok tt, st') ∧ ninputs st' = ninputs st + 1 ∧
    _interesting_examples st' = _interesting_examples st ∧
    dom (seen_arcs st') = dom (seen_arcs st) ∪ novelty st (demo_novel INVALID).
Proof.
  intros st.
  destruct (run_one_invalid_result st ∅ (demo_novel INVALID)
              (run_input (set_ninputs (ninputs st + 1) st)).2)
    as (st' & db' & Hrun & _ & Hn & Hmap & _ & _ & Hseen & _).
  - compute_done.
  - compute_done.
  - reflexivity.
  - compute_done.
  - apply outcome_pair. compute_done.
  - reflexivity.
  - exists st'. split; [exact Hrun|]. split; [exact Hn|].
    split; [exact Hmap|exact Hseen].
Defined.

(** C8 at a target without a database: a VALID result that covers a new
    arc makes [run_one] raise [AttributeError]; the trial is counted, the
    result is not added to the pool and no arc is recorded, while the same
    call on the target with a database admits the result. *)
Lemma run_one_without_database_raises :
  let st := demo_started ["a"; "b"] (demo_novel VALID) None in
  let st' := (run_one st).2 in
  _database st = None ∧
  (startup (demo_target (demo_test ["a"; "b"] (demo_novel VALID)) None)).1 = Ok tt ∧
  (run_input (set_ninputs (ninputs st + 1) st)).1 = Ok (Result (demo_novel VALID)) ∧
  novelty st (demo_novel VALID) = {["b"; "c"; "d"]} ∧
  (run_one st).1 = Raise AttributeError ∧
  ninputs st' = ninputs st + 1 ∧
  pool st' = pool st ∧
  seen_arcs st' = seen_arcs st ∧
  (run_one (demo_ab (demo_novel VALID))).1 = Ok tt ∧
  pool (run_one (demo_ab (demo_novel VALID))).2 =
    SortedKeyList_add (demo_novel VALID) (pool st).
Proof. evaluate. Qed.

Lemma run_one_counts_every_trial_witness :
  let st := demo_ab (demo_novel OVERRUN) in
  ninputs (run_one st).2 = 2 ∧
  run_one st = (Ok tt, (run_input (set_ninputs (ninputs st + 1) st)).2) ∧
  pool (run_one st).2 = pool st ∧
  seen_arcs (run_one st).2 = seen_arcs st.
Proof.
  intros st.
  destruct (run_one_counts_every_trial st) as [Hn Hover].
  - compute_done.
  - destruct (Hover Overrun
                (run_input (set_ninputs (ninputs st + 1) st)).2)
      as (Hrun & Hpool & Hseen & _).
    + apply outcome_pair. compute_done.
    + reflexivity.
    + rewrite Hrun. cbn [snd]. rewrite Hrun in Hn.
      split; [exact Hn|]. split; [reflexivity|]. split; [exact Hpool|exact Hseen].
Defined.

(** The concrete random source keeps to the ranges of [random.Random]. *)
Lemma demo_random_in_unit_interval : random_in_unit_interval.
Proof.
  intros r. cbn. pose proof (Z.mod_pos_bound r 1000).
  unfold Qle, Qlt. simpl. lia.
Qed.

Lemma demo_randint_in_range : randint_in_range.
Proof.
  intros a b r Hab. cbn. pose proof (Z.mod_pos_bound r (b - a + 1)). lia.
Qed.

Lemma run_one_seen_arcs_grow_witness :
  ∃ m, seen_arcs (run_one demo_seen_abc).2 !! "c" = Some m ∧ (1 ≤ m ≤ 2)%nat.
Proof. apply (run_one_seen_arcs_grow demo_seen_abc "c" 1). compute_done. Defined.

Lemma update_hit_counts_witness :
  seen_arcs demo_seen_abc !! ("b" : Arc) = Some 1%nat ∧
  ∃ st', _update (demo_novel VALID) demo_seen_abc = (Ok tt, st') ∧
    seen_arcs st' !! ("b" : Arc) = Some 2%nat.
Proof.
  split; [compute_done|].
  destruct (update_hit_counts demo_seen_abc (demo_novel VALID) "b")
    as (st' & Hrun & Hb).
  - discriminate.
  - left. compute_done.
  - compute_done.
  - exists st'. split; [exact Hrun|]. rewrite Hb. compute_done.
Defined.

Lemma update_consumes_novelty_witness :
  novelty demo_seen_abc (demo_novel VALID) = {["d"]} ∧
  ∃ st' st'', _update (demo_novel VALID) demo_seen_abc = (Ok tt, st') ∧
    novelty st' (demo_novel VALID) = ∅ ∧
    _update (demo_novel VALID) st' = (Ok tt, st'') ∧
    pool st'' = pool st'.
Proof.
  split; [compute_done|].
  apply (update_consumes_novelty demo_seen_abc (demo_novel VALID)).
  - discriminate.
  - left. compute_done.
  - compute_done.
Defined.

Lemma update_primary_key_only_failures_witness :
  saved_under [x6b] (_update (demo_novel VALID) demo_seen_abc).2 =
    saved_under [x6b] demo_seen_abc ∧
  _interesting_examples (_update (demo_novel VALID) demo_seen_abc).2 =
    _interesting_examples demo_seen_abc.
Proof.
  apply (update_primary_key_only_failures demo_seen_abc (demo_novel VALID)).
  - compute_done.
  - discriminate.
Defined.


Lemma demo_reachable : reachable (run_one (startup demo_fresh).2).2.
Proof. apply reachable_run_one, reachable_startup, reachable_init. Qed.

Lemma reachable_counters_and_keys_witness :
  let st := (run_one (startup demo_fresh).2).2 in
  0 ≤ last_new_cov_at st ≤ ninputs st ∧
  _fuzz_database_key st ≠ _hy_database_key st.
Proof.
  destruct (reachable_counters_and_keys _ demo_reachable) as (Hc & _ & Hne & _).
  split; [exact Hc|exact Hne].
Defined.

Lemma reachable_pool_sorted_witness :
  let st := (run_one (startup demo_fresh).2).2 in
  StronglySorted key_le_result (pool st) ∧ Z.of_nat (length (pool st)) ≤ ninputs st.
Proof. exact (reachable_pool_sorted _ demo_reachable). Defined.

Lemma reachable_replay_smallest_next_witness :
  let st := (startup demo_restart).2 in
  generate_prefix st = (Ok [x03], set_replay_buffer [[x01; x02]] st) ∧
  ∀ b', b' ∈ [[x01; x02]] → key_lt [x03] b'.
Proof.
  intros st. apply (reachable_replay_smallest_next st [[x01; x02]] [x03]).
  - apply reachable_startup, reachable_init.
  - compute_done.
Defined.

Lemma generate_prefix_shape_witness :
  (generate_prefix demo_late).1 = Ok [x01; x6b; x63; x0a; x2d; x59; x00] ∧
  ∃ r1 r2 p1 middle p2,
    r1 ∈ pool demo_late ∧ r2 ∈ pool demo_late ∧
    p1 `prefix_of` buffer r1 ∧ p2 `prefix_of` buffer r2 ∧
    [x01; x6b; x63; x0a; x2d; x59; x00] = p1 ++ middle ++ p2 ∧
    (length middle ≤ 9)%nat.
Proof.
  assert ((generate_prefix demo_late).1 = Ok [x01; x6b; x63; x0a; x2d; x59; x00])
    as Hrun by compute_done.
  split; [exact Hrun|].
  destruct (generate_prefix_shape demo_late (generate_prefix demo_late).2
              [x01; x6b; x63; x0a; x2d; x59; x00])
    as [(q & Hq & _)|(_ & _ & [Hb|(r1 & r2 & p1 & middle & p2 & H1 & H2 & H3 & H4 & H5 & H6)])].
  - apply outcome_pair. exact Hrun.
  - assert (_replay_buffer demo_late = []) as Hnil by compute_done.
    rewrite Hnil in Hq. destruct q; discriminate Hq.
  - discriminate Hb.
  - exists r1, r2, p1, middle, p2.
    split; [exact H1|]. split; [exact H2|]. split; [exact H3|]. split; [exact H4|].
    split; [exact H5|]. apply H6, demo_randint_in_range.
Defined.

Lemma _gen_bytes_length_witness :
  ∃ bs st', _gen_bytes 3 demo_late = (Ok bs, st') ∧ length bs = 3%nat.
Proof.
  destruct (_gen_bytes_length 3 demo_late demo_randint_in_range)
    as (bs & st' & Hrun & Hlen & _).
  exists bs, st'. split; [exact Hrun|exact Hlen].
Defined.

Lemma run_one_returns_witness : (run_one demo_late).1 = Ok tt.
Proof.
  apply (run_one_returns demo_late).
  - exact demo_random_in_unit_interval.
  - exact demo_randint_in_range.
  - compute_done.
  - compute_done.
  - compute_done.
Defined.

Lemma run_input_executes_twice_witness :
  let st := demo_ab (demo_novel VALID) in
  (run_input st).1 = Ok (Result (demo_novel VALID)).
Proof.
  intros st.
  rewrite (run_input_executes_twice st
             (generate_prefix
                (set_fuzz_generator
                   {| gen_started := true;
                      test_state := (run_test [] (test_state (fuzz_generator st))).2 |}
                   st)).2 []).
  - compute_done.
  - compute_done.
  - apply outcome_pair. compute_done.
Defined.

Lemma reachable_json_description_witness :
  let st := (run_one (startup demo_fresh).2).2 in
  ∃ d, _json_description st = (Ok d, st) ∧ json_ninputs d = ninputs st ∧
       0 ≤ json_since_new_cov d.
Proof.
  intros st. destruct (reachable_json_description st demo_reachable)
    as (d & Hrun & _ & Hn & _ & _ & Hsince & _).
  exists d. split; [exact Hrun|]. split; [exact Hn|exact Hsince].
Defined.

Lemma fuzz_several_key_order_witness :
  ∃ k0 k1, fuzz_several_key demo_late = (Ok k0, demo_late) ∧
    fuzz_several_key demo_seen_abc = (Ok k1, demo_seen_abc) ∧
    float_lt k1 k0 = true.
Proof.
  destruct (fuzz_several_key_order demo_late demo_seen_abc)
    as (k0 & k1 & H0 & H1 & _ & _ & Hlt).
  - compute_done.
  - compute_done.
  - compute_done.
  - compute_done.
  - exists k0, k1. split; [exact H0|]. split; [exact H1|].
    apply Hlt. compute_done.
Defined.

End Examples.

Section CoveringExamples.
#[local] Existing Instance demo_types.
#[local] Existing Instance demo_covering.

Lemma reachable_hit_counts_positive_witness :
  let st := (run_one (startup demo_covering_fresh).2).2 in
  ∃ n, seen_arcs st !! ("d" : Arc) = Some n ∧ (1 ≤ n)%nat.
Proof.
  intros st. exists 1%nat. split; [compute_done|].
  apply (reachable_hit_counts_positive st ("d" : @Arc demo_types) 1%nat).
  - apply reachable_run_one, reachable_startup, reachable_init.
  - compute_done.
Defined.

Lemma reachable_pool_is_saved_witness :
  let st := (run_one (startup demo_covering_fresh).2).2 in
  demo_novel VALID ∈ pool st ∧
  ∃ first, ∀ r, r ∈ pool st →
    r = first ∨ buffer r ∈ saved_under (_fuzz_database_key st) st.
Proof.
  intros st. split; [compute_done|].
  apply (reachable_pool_is_saved st).
  - apply reachable_run_one, reachable_startup, reachable_init.
  - compute_done.
Defined.

End CoveringExamples.

Section FailingExamples.
#[local] Existing Instance demo_types.
#[local] Existing Instance demo_failing.

Lemma reachable_failures_are_saved_witness :
  let st := (run_one (startup demo_failing_fresh).2).2 in
  replicate 4 x01 ∈ saved_under [x6b] st.
Proof.
  intros st.
  apply (reachable_failures_are_saved st (Some ("AssertionError t.py 3" : @Origin demo_types))).
  - apply reachable_run_one, reachable_startup, reachable_init.
  - compute_done.
  - compute_done.
Defined.

End FailingExamples.
